(** * Ingress node firewall loader: the user-space control plane

    A shallow embedding of package [nodefwloader]
    (pkg/ebpf/ingress_node_firewall_events.go and the loader file that
    follows it): the port-range parser, the rule compiler that fills the
    LPM table, the XDP attachment manager and the perf-event reader that
    renders audit lines.

    Go strings are byte sequences: they are [string]s of [ascii] bytes.
    Raw samples and addresses are [list byte].  Fixed-width integers are
    [Z] with their wrap-around written out. *)

From Stdlib Require Import ZArith String Ascii Strings.Byte List Bool Lia.
From Stdlib Require Import DecimalString DecimalPos DecimalN.
From stdpp Require Import base option countable strings list gmap.
Import ListNotations.

Open Scope string_scope.
Open Scope Z_scope.

(** ** The policy types *)

(** Modelled from the spec: the policy types of package [api/v1alpha1] are
    not part of these sources.  A rule carries its order (the rule id), a
    protocol tag, an action and a payload: port text for TCP, UDP and SCTP,
    type and code for ICMP and ICMPv6.  The fields are the ones
    [makeIngressFwRulesMap] reads.  Protocol and action are string types in
    Go: the last constructor of each stands for any value that is none of
    the named constants. *)
Module v1alpha1.
Inductive IngressNodeFirewallRuleProtocolType : Type :=
| ProtocolTypeTCP | ProtocolTypeUDP | ProtocolTypeSCTP
| ProtocolTypeICMP | ProtocolTypeICMPv6
| ProtocolTypeOther (text : string).

Inductive IngressNodeFirewallActionType : Type :=
| IngressNodeFirewallAllow | IngressNodeFirewallDeny
| ActionOther (text : string).

Record IngressNodeFirewallProtocolRule : Type := {
  Order : Z;                                      (* uint32 *)
  Protocol : IngressNodeFirewallRuleProtocolType;
  Ports : string;                                 (* ProtocolRule.Ports *)
  ICMPType : Z;                                   (* ICMPRule.ICMPType, uint8 *)
  ICMPCode : Z;                                   (* ICMPRule.ICMPCode, uint8 *)
  Action : IngressNodeFirewallActionType
}.

Record IngressNodeFirewallRules : Type := {
  SourceCIDRs : list string;
  FirewallProtocolRules : list IngressNodeFirewallProtocolRule
}.
End v1alpha1.

(** ** Errors and log records

    [fmt.Errorf] and [log.Printf] are recorded as the call that was made:
    the format string and its operands.  Errors that come out of the Go
    libraries are constructors of their own. *)

Inductive liberror : Type :=
| ErrSyntax (fn num : string)          (* strconv.ErrSyntax inside a *NumError *)
| ErrRange (fn num : string)           (* strconv.ErrRange inside a *NumError *)
| EOF                                  (* io.EOF *)
| ErrUnexpectedEOF                     (* io.ErrUnexpectedEOF *)
| ErrInvalidInterfaceIndex             (* net: invalid network interface index *)
| ErrInvalidInterfaceName              (* net: invalid network interface name *)
| ErrNoSuchInterface                   (* net: no such network interface *)
| ErrParseCIDR (text : string)         (* *net.ParseError, Type "CIDR address" *)
| ErrKeyNotExist                       (* ebpf.ErrKeyNotExist *)
| ErrClosed                            (* use of a closed file descriptor *)
| ErrKernel (what : string).           (* any other errno of a bpf/link call *)

Inductive operand : Type :=
| OInt (z : Z)
| OStr (s : string)
| OErr (e : liberror)
| OProtocol (p : v1alpha1.IngressNodeFirewallRuleProtocolType)
| OAction (a : v1alpha1.IngressNodeFirewallActionType)
| OKey (PrefixLen : Z) (IpData : list byte).      (* a bpfBpfLpmIpKeySt *)

Inductive error : Type :=
| Errorf (format : string) (operands : list operand).

Record logline : Type := Printf { lformat : string; loperands : list operand }.

(** ** strconv.ParseUint(s, 10, 16) *)

Definition u8 (c : ascii) : Z := Z.of_N (N_of_ascii c).

Definition maxUint64 : Z := 2 ^ 64 - 1.

(** [lower(c) = c | ('x' - 'X')] *)
Definition lower (c : Z) : Z := Z.lor c 32.

Section ParseUint.
Variable base : Z.
Variable bitSize : Z.

(** Cutoff is the smallest number such that cutoff*base > maxUint64. *)
Definition cutoff : Z := maxUint64 / base + 1.
Definition maxVal : Z := Z.shiftl 1 bitSize - 1.

(** The digit loop of [ParseUint]; [n] is the uint64 accumulator.  The
    underscore case is guarded by [base == 0] and is absent here. *)
Fixpoint ParseUint_loop (s : string) (n : Z) : Z * option (string -> string -> liberror) :=
  match s with
  | EmptyString => (n, None)
  | String ch s' =>
      let c := u8 ch in
      let digit :=
        if (48 <=? c) && (c <=? 57) then Some (c - 48)
        else if (97 <=? lower c) && (lower c <=? 122) then Some (lower c - 97 + 10)
        else None in
      match digit with
      | None => (0, Some ErrSyntax)
      | Some d =>
          if base <=? d then (0, Some ErrSyntax)
          else if cutoff <=? n then (maxVal, Some ErrRange)
          else
            let n' := (n * base) mod 2 ^ 64 in
            let n1 := (n' + d) mod 2 ^ 64 in
            if (n1 <? n') || (maxVal <? n1) then (maxVal, Some ErrRange)
            else ParseUint_loop s' n1
      end
  end.
End ParseUint.

(** [strconv.ParseUint(s, base, bitSize)] for [2 <= base <= 36] and
    [0 < bitSize <= 64], the only way this package calls it. *)
Definition ParseUint (s : string) (base bitSize : Z) : Z * option liberror :=
  match s with
  | EmptyString => (0, Some (ErrSyntax "ParseUint" s))
  | _ =>
      match ParseUint_loop base bitSize s 0 with
      | (n, None) => (n, None)
      | (n, Some mk) => (n, Some (mk "ParseUint" s))
      end
  end.

(** ** strings.Contains and strings.SplitN for a one-byte separator *)

Fixpoint IndexByte (s : string) (sep : ascii) : option nat :=
  match s with
  | EmptyString => None
  | String c s' =>
      if Ascii.eqb c sep then Some 0%nat
      else match IndexByte s' sep with
           | Some m => Some (S m)
           | None => None
           end
  end.

Definition Contains (s : string) (sep : ascii) : bool :=
  match IndexByte s sep with Some _ => true | None => false end.

(** The loop of [genSplit]: at most [n] cuts, then the rest. *)
Fixpoint genSplit_loop (s : string) (sep : ascii) (n : nat) : list string :=
  match n with
  | O => [s]
  | S n' =>
      match IndexByte s sep with
      | None => [s]
      | Some m =>
          substring 0 m s :: genSplit_loop (substring (S m) (String.length s - S m) s) sep n'
      end
  end.

(** [strings.SplitN(s, sep, n)] for [n > 0] and a separator of one byte. *)
Definition SplitN (s : string) (sep : ascii) (n : nat) : list string :=
  let n := if (String.length s + 1 <? n)%nat then (String.length s + 1)%nat else n in
  genSplit_loop s sep (n - 1).

(** ** parseDstPorts *)

Definition hyphen : ascii := "-"%char.

Definition parseDstPorts (ports : string) : Z * Z * option error :=
  if negb (Contains ports hyphen) then
    match ParseUint ports 10 16 with
    | (_, Some err) => (0, 0, Some (Errorf "invalid Port number %v" [OErr err]))
    | (port, None) => (port mod 2 ^ 16, 0, None)
    end
  else
    let ps := SplitN ports hyphen 2 in
    match ps with
    | [ps0; ps1] =>
        match ParseUint ps0 10 16 with
        | (_, Some err) => (0, 0, Some (Errorf "invalid Start DstPort number %s" [OErr err]))
        | (startPort, None) =>
            match ParseUint ps1 10 16 with
            | (_, Some err) => (0, 0, Some (Errorf "invalid End DstPort number %s" [OErr err]))
            | (endPort, None) => (startPort mod 2 ^ 16, endPort mod 2 ^ 16, None)
            end
        end
    | _ =>
        (0, 0, Some (Errorf "invalid Ports range, Expected two integers seperated by hyphen but found  %q" [OStr ports]))
    end.

(** ** Bytes and little-endian fields *)

Definition byteZ (b : byte) : Z := Z.of_N (Byte.to_N b).

(** [b[i]] for an index within the slice *)
Definition idx (b : list byte) (i : nat) : Z := byteZ (nth i b x00).

(** [b[lo:hi]] *)
Definition slice (b : list byte) (lo hi : nat) : list byte := firstn (hi - lo) (skipn lo b).

(** [binary.LittleEndian.Uint16(b)]: [uint16(b[0]) | uint16(b[1])<<8] *)
Definition Uint16 (b : list byte) : Z := Z.lor (idx b 0) (Z.shiftl (idx b 1) 8).

(** [io.ReadFull(bytes.NewBuffer(src), buf)] with [len(buf) = n]: the bytes
    that reached [buf], and the error. *)
Definition ReadFull (src : list byte) (n : nat) : list byte * option liberror :=
  if (n <=? length src)%nat then (firstn n src, None)
  else match src with
       | [] => ([], Some EOF)
       | _ => (src, Some ErrUnexpectedEOF)
       end.

(** ** The event header *)

(** Modelled from the spec: [BpfEventHdrSt] is generated by bpf2go from the
    kernel program's [event_hdr_st] and is not part of these sources.  Its
    fields are interface index (2 bytes), rule id (2 bytes), action (1 byte),
    padding, packet length (2 bytes); [unsafe.Sizeof] of it is 8. *)
Module BpfEventHdrSt.
Record t : Type := {
  IfId : Z;          (* uint16 *)
  RuleId : Z;        (* uint16 *)
  Action : Z;        (* uint8 *)
  PktLength : Z      (* uint16 *)
}.
End BpfEventHdrSt.

Definition eventHdrSize : nat := 8.

Inductive eventResult : Type :=
| HeaderErr (e : liberror)
| PacketErr (e : liberror)
| Event (eventHdr : BpfEventHdrSt.t) (packet : list byte).

(** The header and packet steps of the reader loop on [record.RawSample]. *)
Definition readEvent (RawSample : list byte) : eventResult :=
  match ReadFull RawSample eventHdrSize with
  | (_, Some err) => HeaderErr err
  | (buf, None) =>
      let eventHdr := {| BpfEventHdrSt.IfId := Uint16 (slice buf 0 2);
                         BpfEventHdrSt.RuleId := Uint16 (slice buf 2 4);
                         BpfEventHdrSt.Action := idx buf 4;
                         BpfEventHdrSt.PktLength := Uint16 (slice buf 6 8) |} in
      match ReadFull (skipn eventHdrSize RawSample) (Z.to_nat (BpfEventHdrSt.PktLength eventHdr)) with
      | (_, Some err) => PacketErr err
      | (packet, None) => Event eventHdr packet
      end
  end.

(** ** Formatting: [%d], [IP.String] *)

(** [%d] of an unsigned value *)
Definition itoa (z : Z) : string := NilZero.string_of_uint (N.to_uint (Z.to_N z)).

Definition xdpDeny : Z := 1.
Definition xdpAllow : Z := 2.

Definition convertXdpActionToString (action : Z) : string :=
  if action =? xdpDeny then "Drop"
  else if action =? xdpAllow then "Allow"
  else "Invalid action " ++ itoa action.

Definition hexdigit (d : Z) : string :=
  String (ascii_of_N (Z.to_N (if d <? 10 then 48 + d else 87 + d))) EmptyString.

(** [hexString]: two lower-case digits per byte *)
Fixpoint hexString (b : list byte) : string :=
  match b with
  | [] => ""
  | x :: b' => hexdigit (byteZ x / 16) ++ hexdigit (byteZ x mod 16) ++ hexString b'
  end.

(** [appendHex]: a 16-bit group without leading zeros *)
Definition appendHex (i : Z) : string :=
  if i =? 0 then "0"
  else
    (if 4096 <=? i then hexdigit (i / 4096) else "") ++
    (if 256 <=? i then hexdigit (i / 256 mod 16) else "") ++
    (if 16 <=? i then hexdigit (i / 16 mod 16) else "") ++
    hexdigit (i mod 16).

Definition isZeros (p : list byte) : bool := forallb (fun b => byteZ b =? 0) p.

(** [IP.To4]: [None] is the nil slice *)
Definition To4 (ip : list byte) : option (list byte) :=
  if (length ip =? 4)%nat then Some ip
  else if (length ip =? 16)%nat && isZeros (slice ip 0 10)
          && (idx ip 10 =? 255) && (idx ip 11 =? 255)
       then Some (slice ip 12 16)
       else None.

(** [IP.To16]: [None] is the nil slice *)
Definition To16 (ip : list byte) : option (list byte) :=
  if (length ip =? 4)%nat then
    Some (repeat x00 10 ++ [xff; xff] ++ ip)%list
  else if (length ip =? 16)%nat then Some ip
  else None.

Fixpoint dotted (p : list byte) : string :=
  match p with
  | [] => ""
  | [x] => itoa (byteZ x)
  | x :: p' => itoa (byteZ x) ++ "." ++ dotted p'
  end.

(** The eight 16-bit groups of a 16-byte address *)
Fixpoint groups (p : list byte) : list Z :=
  match p with
  | hi :: lo :: p' => Z.lor (Z.shiftl (byteZ hi) 8) (byteZ lo) :: groups p'
  | _ => []
  end.

(** Length of the run of zero groups at the head of [g] *)
Fixpoint zeroRun (g : list Z) : nat :=
  match g with
  | 0 :: g' => S (zeroRun g')
  | _ => O
  end.

(** The longest run of zero groups, the first one among equals: start and
    end group, [None] when no run has two groups. *)
Fixpoint longestZeros (g : list Z) (i : nat) (best : option (nat * nat)) : option (nat * nat) :=
  match g with
  | [] => best
  | _ :: g' =>
      let l := zeroRun g in
      let cur := match best with Some (e0, e1) => (e1 - e0)%nat | None => O end in
      let best' := if (2 <=? l)%nat && (cur <? l)%nat then Some (i, (i + l)%nat) else best in
      longestZeros g' (S i) best'
  end.

Fixpoint printGroups (g : list Z) (i : nat) (zero : option (nat * nat)) : string :=
  match g with
  | [] => ""
  | x :: g' =>
      match zero with
      | Some (e0, e1) =>
          if (i =? e0)%nat then "::" ++ printGroups g' (S i) zero
          else if (e0 <? i)%nat && (i <? e1)%nat then printGroups g' (S i) zero
          else (if (0 <? i)%nat && negb (i =? e1)%nat then ":" else "") ++ appendHex x ++ printGroups g' (S i) zero
      | None => (if (0 <? i)%nat then ":" else "") ++ appendHex x ++ printGroups g' (S i) zero
      end
  end.

(** [IP.String] *)
Definition IP_String (ip : list byte) : string :=
  match ip with
  | [] => "<nil>"
  | _ =>
      match To4 ip with
      | Some p4 => dotted p4
      | None =>
          if negb (length ip =? 16)%nat then "?" ++ hexString ip
          else printGroups (groups ip) 0 (longestZeros (groups ip) 0 None)
      end
  end.

(** ** The kernel's interface table *)

Record Interface : Type := { Name : string; Index : Z }.

(** [net.InterfaceByIndex] *)
Definition InterfaceByIndex (ifaces : list Interface) (index : Z) : Interface + liberror :=
  if index <=? 0 then inr ErrInvalidInterfaceIndex
  else match find (fun ifi => Index ifi =? index) ifaces with
       | Some ifi => inl ifi
       | None => inr ErrNoSuchInterface
       end.

(** [net.InterfaceByName] *)
Definition InterfaceByName (ifaces : list Interface) (name : string) : Interface + liberror :=
  if String.eqb name "" then inr ErrInvalidInterfaceName
  else match find (fun ifi => String.eqb (Name ifi) name) ifaces with
       | Some ifi => inl ifi
       | None => inr ErrNoSuchInterface
       end.

(** ** Decoded packets

    What [gopacket.NewPacket(packet, layers.LayerTypeEthernet, gopacket.Default)]
    found: the layers in the order they were decoded, with the fields the
    reader prints. *)

Inductive LayerType : Type :=
| LayerTypeEthernet | LayerTypeIPv4 | LayerTypeIPv6 | LayerTypeTCP | LayerTypeUDP
| LayerTypeSCTP | LayerTypeICMPv4 | LayerTypeICMPv6 | LayerTypeOther.

Inductive Layer : Type :=
| Ethernet
| IPv4 (SrcIP DstIP : list byte)
| IPv6 (SrcIP DstIP : list byte)
| TCP (SrcPort DstPort : Z)
| UDP (SrcPort DstPort : Z)
| SCTP (SrcPort DstPort : Z)
| ICMPv4 (TypeCode : Z)
| ICMPv6 (TypeCode : Z)
| OtherLayer (name : string).

Definition layerType (l : Layer) : LayerType :=
  match l with
  | Ethernet => LayerTypeEthernet
  | IPv4 _ _ => LayerTypeIPv4
  | IPv6 _ _ => LayerTypeIPv6
  | TCP _ _ => LayerTypeTCP
  | UDP _ _ => LayerTypeUDP
  | SCTP _ _ => LayerTypeSCTP
  | ICMPv4 _ => LayerTypeICMPv4
  | ICMPv6 _ => LayerTypeICMPv6
  | OtherLayer _ => LayerTypeOther
  end.

Definition LayerType_eqb (a b : LayerType) : bool :=
  match a, b with
  | LayerTypeEthernet, LayerTypeEthernet | LayerTypeIPv4, LayerTypeIPv4
  | LayerTypeIPv6, LayerTypeIPv6 | LayerTypeTCP, LayerTypeTCP
  | LayerTypeUDP, LayerTypeUDP | LayerTypeSCTP, LayerTypeSCTP
  | LayerTypeICMPv4, LayerTypeICMPv4 | LayerTypeICMPv6, LayerTypeICMPv6
  | LayerTypeOther, LayerTypeOther => true
  | _, _ => false
  end.

(** [Packet.Layer(t)]: the first layer of type [t], [None] for nil *)
Definition PacketLayer (p : list Layer) (t : LayerType) : option Layer :=
  find (fun l => LayerType_eqb (layerType l) t) p.

(** [ICMPv4TypeCode.Type] and [.Code] (the same for ICMPv6) *)
Definition TypeCode_Type (a : Z) : Z := Z.shiftr a 8 mod 256.
Definition TypeCode_Code (a : Z) : Z := a mod 256.

(** ** The reader task *)

(** [perf.Record] *)
Record Record_ : Type := { RawSample : list byte; LostSamples : Z }.

(** What [rd.Read()] returns *)
Inductive readResult : Type :=
| ReadRecord (record : Record_)
| ReadClosed                         (* errors.Is(err, perf.ErrClosed) *)
| ReadError (err : liberror).

(** The two sinks of the reader: the process log ([log.Printf]) and the
    syslog writer ([eventsLogger.Info]), oldest line first. *)
Record sinks : Type := { stdlog : list logline; audit : list string }.

Definition log_Printf (format : string) (operands : list operand) (s : sinks) : sinks :=
  {| stdlog := stdlog s ++ [Printf format operands]; audit := audit s |}.

Definition eventsLogger_Info (line : string) (s : sinks) : sinks :=
  {| stdlog := stdlog s; audit := audit s ++ [line] |}.

Section EventPipeline.
(** the layers [gopacket.NewPacket] decodes from a raw packet *)
Variable NewPacket : list byte -> list Layer.
(** the node's interfaces *)
Variable ifaces : list Interface.

Definition optionally (o : option Layer) (line : Layer -> option string) (s : sinks) : sinks :=
  match o with
  | Some l => match line l with Some text => eventsLogger_Info text s | None => s end
  | None => s
  end.

(** The per-layer lines of one packet, in the order of the checks. *)
Definition logLayers (decodePacket : list Layer) (s : sinks) : sinks :=
  let s := optionally (PacketLayer decodePacket LayerTypeIPv4)
    (fun l => match l with
              | IPv4 src dst =>
                  Some (String "009" "ipv4 src addr " ++ IP_String src ++ " dst addr " ++ IP_String dst ++ String "010" "")
              | _ => None end) s in
  let s := optionally (PacketLayer decodePacket LayerTypeIPv6)
    (fun l => match l with
              | IPv6 src dst =>
                  Some (String "009" "ipv6 src addr " ++ IP_String src ++ " dst addr " ++ IP_String dst ++ String "010" "")
              | _ => None end) s in
  let s := optionally (PacketLayer decodePacket LayerTypeTCP)
    (fun l => match l with
              | TCP sp dp =>
                  Some (String "009" "tcp srcPort " ++ itoa sp ++ " dstPort " ++ itoa dp ++ String "010" "")
              | _ => None end) s in
  let s := optionally (PacketLayer decodePacket LayerTypeUDP)
    (fun l => match l with
              | UDP sp dp =>
                  Some (String "009" "udp srcPort " ++ itoa sp ++ " dstPort " ++ itoa dp ++ String "010" "")
              | _ => None end) s in
  let s := optionally (PacketLayer decodePacket LayerTypeSCTP)
    (fun l => match l with
              | SCTP sp dp =>
                  Some (String "009" "sctp srcPort " ++ itoa sp ++ " dstPort " ++ itoa dp ++ String "010" "")
              | _ => None end) s in
  let s := optionally (PacketLayer decodePacket LayerTypeICMPv4)
    (fun l => match l with
              | ICMPv4 tc =>
                  Some (String "009" "icmpv4 type " ++ itoa (TypeCode_Type tc) ++ " code " ++ itoa (TypeCode_Code tc) ++ String "010" "")
              | _ => None end) s in
  optionally (PacketLayer decodePacket LayerTypeICMPv6)
    (fun l => match l with
              | ICMPv6 tc =>
                  Some (String "009" "icmpv6 type " ++ itoa (TypeCode_Type tc) ++ " code " ++ itoa (TypeCode_Code tc) ++ String "010" "")
              | _ => None end) s.

(** One turn of the reader loop on a record that [rd.Read()] returned. *)
Definition handleRecord (record : Record_) (s : sinks) : sinks :=
  if negb (LostSamples record =? 0) then
    log_Printf "Perf event ring buffer full, dropped %d samples" [OInt (LostSamples record)] s
  else
    match readEvent (RawSample record) with
    | HeaderErr err => log_Printf "Parsing perf event header err: %v" [OErr err] s
    | PacketErr err => log_Printf "Parsing perf event packet header : %v" [OErr err] s
    | Event eventHdr packet =>
        match InterfaceByIndex ifaces (BpfEventHdrSt.IfId eventHdr) with
        | inr err =>
            log_Printf "lookup network iface %d: %s" [OInt (BpfEventHdrSt.IfId eventHdr); OErr err] s
        | inl iface =>
            let s := eventsLogger_Info
                       ("ruleId " ++ itoa (BpfEventHdrSt.RuleId eventHdr) ++ " action " ++
                        convertXdpActionToString (BpfEventHdrSt.Action eventHdr) ++ " len " ++
                        itoa (BpfEventHdrSt.PktLength eventHdr) ++ " if " ++ Name iface ++ String "010" "") s in
            logLayers (NewPacket packet) s
        end
    end.

(** The reader loop over the results of successive [rd.Read()] calls.  The
    flag tells whether the task returned (the reader was closed) or is
    waiting for the next record. *)
Fixpoint readerLoop (reads : list readResult) (s : sinks) : sinks * bool :=
  match reads with
  | [] => (s, false)
  | ReadClosed :: _ => (s, true)
  | ReadError err :: reads' =>
      readerLoop reads' (log_Printf "Reading from perf event reader: %q" [OErr err] s)
  | ReadRecord record :: reads' => readerLoop reads' (handleRecord record s)
  end.
End EventPipeline.

(** ** The table, the links and the controller *)

#[global] Instance byte_eq_dec : EqDecision byte.
Proof.
  intros a b. destruct (decide (Byte.to_N a = Byte.to_N b)) as [H|H].
  - left. apply (f_equal Byte.of_N) in H. rewrite !Byte.of_to_N in H. congruence.
  - right. congruence.
Defined.

#[global] Instance byte_countable : Countable byte :=
  inj_countable Byte.to_N Byte.of_N Byte.of_to_N.

(** Modelled from the spec: [bpfRuleTypeSt], [bpfRulesValSt] and
    [bpfBpfLpmIpKeySt] are generated by bpf2go and are not part of these
    sources.  A value is a count of rules and a fixed-capacity array of rule
    entries; a key is a prefix length (4 bytes) and 16 address bytes. *)
Module BpfRuleTypeSt.
Record t : Type := {
  RuleId : Z;
  Protocol : Z;
  DstPortStart : Z;
  DstPortEnd : Z;
  IcmpType : Z;
  IcmpCode : Z;
  Action : Z
}.
Definition zero : t :=
  {| RuleId := 0; Protocol := 0; DstPortStart := 0; DstPortEnd := 0;
     IcmpType := 0; IcmpCode := 0; Action := 0 |}.
Definition setRuleId (v : Z) (e : t) : t :=
  {| RuleId := v; Protocol := Protocol e; DstPortStart := DstPortStart e;
     DstPortEnd := DstPortEnd e; IcmpType := IcmpType e; IcmpCode := IcmpCode e;
     Action := Action e |}.
Definition setProtocol (v : Z) (e : t) : t :=
  {| RuleId := RuleId e; Protocol := v; DstPortStart := DstPortStart e;
     DstPortEnd := DstPortEnd e; IcmpType := IcmpType e; IcmpCode := IcmpCode e;
     Action := Action e |}.
Definition setDstPortStart (v : Z) (e : t) : t :=
  {| RuleId := RuleId e; Protocol := Protocol e; DstPortStart := v;
     DstPortEnd := DstPortEnd e; IcmpType := IcmpType e; IcmpCode := IcmpCode e;
     Action := Action e |}.
Definition setDstPortEnd (v : Z) (e : t) : t :=
  {| RuleId := RuleId e; Protocol := Protocol e; DstPortStart := DstPortStart e;
     DstPortEnd := v; IcmpType := IcmpType e; IcmpCode := IcmpCode e;
     Action := Action e |}.
Definition setIcmpType (v : Z) (e : t) : t :=
  {| RuleId := RuleId e; Protocol := Protocol e; DstPortStart := DstPortStart e;
     DstPortEnd := DstPortEnd e; IcmpType := v; IcmpCode := IcmpCode e;
     Action := Action e |}.
Definition setIcmpCode (v : Z) (e : t) : t :=
  {| RuleId := RuleId e; Protocol := Protocol e; DstPortStart := DstPortStart e;
     DstPortEnd := DstPortEnd e; IcmpType := IcmpType e; IcmpCode := v;
     Action := Action e |}.
Definition setAction (v : Z) (e : t) : t :=
  {| RuleId := RuleId e; Protocol := Protocol e; DstPortStart := DstPortStart e;
     DstPortEnd := DstPortEnd e; IcmpType := IcmpType e; IcmpCode := IcmpCode e;
     Action := v |}.
End BpfRuleTypeSt.

Record BpfRulesValSt : Type := {
  NumRules : Z;                       (* uint32 *)
  Rules : list BpfRuleTypeSt.t        (* an array: its length never changes *)
}.

(** [bpfRulesValSt{}] for an array of [n] entries *)
Definition BpfRulesValSt_zero (n : nat) : BpfRulesValSt :=
  {| NumRules := 0; Rules := repeat BpfRuleTypeSt.zero n |}.

Record BpfBpfLpmIpKeySt : Type := {
  PrefixLen : Z;                      (* uint32 *)
  IpData : list byte                  (* [16]uint8 *)
}.

Definition BpfBpfLpmIpKeySt_zero : BpfBpfLpmIpKeySt :=
  {| PrefixLen := 0; IpData := repeat x00 16 |}.

(** An XDP link object of the link library: the interface it is bound to,
    the path it is pinned at, and whether its descriptor is still open. *)
Record XDPLink : Type := {
  ifindex : Z;
  pinnedPath : option string;
  fd_open : bool
}.

(** [IngNodeFwController]: [links] holds handles into the link objects
    (Go holds pointers); the descriptors of [objs] live in the kernel
    state, shared by every copy of [objs]. *)
Record IngNodeFwController : Type := {
  links : list nat;
  pinPath : string
}.

Record Kernel : Type := {
  interfaces : list Interface;
  table : gmap (Z * list byte) BpfRulesValSt;   (* IngressNodeFirewallTableMap *)
  objs_open : bool;                             (* objs not yet closed *)
  xdp_links : list XDPLink;                     (* every link created, by handle *)
  bpffs : gset string                           (* the pinned paths *)
}.

Record State : Type := {
  infc : IngNodeFwController;
  kernel : Kernel;
  log : list logline                            (* log.Printf, oldest first *)
}.

Definition setTable (t : gmap (Z * list byte) BpfRulesValSt) (k : Kernel) : Kernel :=
  {| interfaces := interfaces k; table := t; objs_open := objs_open k;
     xdp_links := xdp_links k; bpffs := bpffs k |}.
Definition setObjsOpen (b : bool) (k : Kernel) : Kernel :=
  {| interfaces := interfaces k; table := table k; objs_open := b;
     xdp_links := xdp_links k; bpffs := bpffs k |}.
Definition setXdpLinks (l : list XDPLink) (k : Kernel) : Kernel :=
  {| interfaces := interfaces k; table := table k; objs_open := objs_open k;
     xdp_links := l; bpffs := bpffs k |}.
Definition setBpffs (s : gset string) (k : Kernel) : Kernel :=
  {| interfaces := interfaces k; table := table k; objs_open := objs_open k;
     xdp_links := xdp_links k; bpffs := s |}.
Definition setKernel (k : Kernel) (st : State) : State :=
  {| infc := infc st; kernel := k; log := log st |}.
Definition setLinks (l : list nat) (st : State) : State :=
  {| infc := {| links := l; pinPath := pinPath (infc st) |}; kernel := kernel st; log := log st |}.
Definition logPrintf (format : string) (operands : list operand) (st : State) : State :=
  {| infc := infc st; kernel := kernel st; log := log st ++ [Printf format operands] |}.

(** ** Outcomes *)

Inductive runtimeError : Type :=
| IndexOutOfRange (index length : nat).   (* index out of range [index] with length [length] *)

(** How a call of a function that returns [error] ends: it returns nil, it
    returns an error, or it panics. *)
Inductive outcome : Type :=
| ReturnNil
| ReturnErr (err : error)
| Panic (p : runtimeError).

(** ** The Map Store

    The kernel's longest-prefix-match table behind
    [objs.IngressNodeFirewallTableMap].  A key names its entry by the prefix
    length and the address bits within the prefix.  Update with [UpdateAny]
    and Delete fail on a closed map; Delete of a missing key is
    [ErrKeyNotExist]. *)

Definition byte_of_Z (z : Z) : byte :=
  match Byte.of_N (Z.to_N z) with Some b => b | None => x00 end.

Fixpoint maskData (data : list byte) (bits : Z) : list byte :=
  match data with
  | [] => []
  | b :: data' =>
      (if 8 <=? bits then b
       else if bits <=? 0 then x00
       else byte_of_Z (Z.land (byteZ b) (Z.land (Z.shiftl 255 (8 - bits)) 255)))
      :: maskData data' (bits - 8)
  end.

Definition entryOf (key : BpfBpfLpmIpKeySt) : Z * list byte :=
  (PrefixLen key, maskData (IpData key) (PrefixLen key)).

Definition Map_Update (key : BpfBpfLpmIpKeySt) (value : BpfRulesValSt) (k : Kernel)
  : option liberror * Kernel :=
  if negb (objs_open k) then (Some ErrClosed, k)
  else if 8 * Z.of_nat (length (IpData key)) <? PrefixLen key then (Some (ErrKernel "EINVAL"), k)
  else (None, setTable (<[entryOf key := value]> (table k)) k).

Definition Map_Delete (key : BpfBpfLpmIpKeySt) (k : Kernel) : option liberror * Kernel :=
  if negb (objs_open k) then (Some ErrClosed, k)
  else if 8 * Z.of_nat (length (IpData key)) <? PrefixLen key then (Some (ErrKernel "EINVAL"), k)
  else match table k !! entryOf key with
       | None => (Some ErrKeyNotExist, k)
       | Some _ => (None, setTable (delete (entryOf key) (table k)) k)
       end.

(** ** The rule compiler *)

Definition IPPROTO_ICMP : Z := 1.
Definition IPPROTO_TCP : Z := 6.
Definition IPPROTO_UDP : Z := 17.
Definition IPPROTO_ICMPV6 : Z := 58.
Definition IPPROTO_SCTP : Z := 132.

(** [copy(dst, src)]: the new contents of [dst] *)
Definition copy (dst src : list byte) : list byte :=
  let n := Nat.min (length dst) (length src) in
  (firstn n src ++ skipn n dst)%list.

(** [simpleMaskLength]: the number of leading ones of a mask whose other
    bits are all zero, [None] for -1 *)
Fixpoint leadingOnes (v : Z) (fuel : nat) : Z * Z :=
  match fuel with
  | O => (0, v)
  | S fuel' =>
      if negb (Z.land v 128 =? 0) then
        let '(n, v') := leadingOnes (Z.shiftl v 1 mod 256) fuel' in (n + 1, v')
      else (0, v)
  end.

Fixpoint simpleMaskLength (mask : list byte) : option Z :=
  match mask with
  | [] => Some 0
  | v :: mask' =>
      if byteZ v =? 255 then
        match simpleMaskLength mask' with Some n => Some (n + 8) | None => None end
      else
        let '(n, rest) := leadingOnes (byteZ v) 8 in
        if negb (rest =? 0) then None
        else if isZeros mask' then Some n else None
  end.

(** [IPMask.Size] *)
Definition Mask_Size (m : list byte) : Z * Z :=
  match simpleMaskLength m with
  | None => (0, 0)
  | Some ones => (ones, Z.of_nat (length m) * 8)
  end.

Definition setNumRules (n : Z) (rules : BpfRulesValSt) : BpfRulesValSt :=
  {| NumRules := n; Rules := Rules rules |}.

(** [rules.Rules[idx].f = v] for an index within the array *)
Definition setRule (i : nat) (f : BpfRuleTypeSt.t -> BpfRuleTypeSt.t) (rules : BpfRulesValSt)
  : BpfRulesValSt :=
  {| NumRules := NumRules rules; Rules := alter f i (Rules rules) |}.

Section RuleCompiler.
(** the capacity of [bpfRulesValSt.Rules], a constant of the kernel program *)
Variable maxRules : nat.
(** [net.ParseCIDR]: the address and the mask of the network, or an error *)
Variable ParseCIDR : string -> (list byte * list byte) + liberror.

(** The three port cases of the protocol switch. *)
Definition portsCase (rule : v1alpha1.IngressNodeFirewallProtocolRule) (proto : Z)
           (i : nat) (rules : BpfRulesValSt) : BpfRulesValSt + error :=
  match parseDstPorts (v1alpha1.Ports rule) with
  | (_, _, Some err) =>
      inr (Errorf "Invalid Ports %s for protocol %v"
             [OStr (v1alpha1.Ports rule); OProtocol (v1alpha1.Protocol rule)])
  | (start, end_, None) =>
      let rules := setRule i (BpfRuleTypeSt.setDstPortStart start) rules in
      let rules := setRule i (BpfRuleTypeSt.setDstPortEnd end_) rules in
      inl (setRule i (BpfRuleTypeSt.setProtocol proto) rules)
  end.

(** The two ICMP cases of the protocol switch. *)
Definition icmpCase (rule : v1alpha1.IngressNodeFirewallProtocolRule) (proto : Z)
           (i : nat) (rules : BpfRulesValSt) : BpfRulesValSt + error :=
  let rules := setRule i (BpfRuleTypeSt.setIcmpType (v1alpha1.ICMPType rule)) rules in
  let rules := setRule i (BpfRuleTypeSt.setIcmpCode (v1alpha1.ICMPCode rule)) rules in
  inl (setRule i (BpfRuleTypeSt.setProtocol proto) rules).

Definition protocolSwitch (rule : v1alpha1.IngressNodeFirewallProtocolRule)
           (i : nat) (rules : BpfRulesValSt) : BpfRulesValSt + error :=
  match v1alpha1.Protocol rule with
  | v1alpha1.ProtocolTypeTCP => portsCase rule IPPROTO_TCP i rules
  | v1alpha1.ProtocolTypeUDP => portsCase rule IPPROTO_UDP i rules
  | v1alpha1.ProtocolTypeSCTP => portsCase rule IPPROTO_SCTP i rules
  | v1alpha1.ProtocolTypeICMP => icmpCase rule IPPROTO_ICMP i rules
  | v1alpha1.ProtocolTypeICMPv6 => icmpCase rule IPPROTO_ICMPV6 i rules
  | v1alpha1.ProtocolTypeOther _ =>
      inr (Errorf "Failed invalid protocol %v" [OProtocol (v1alpha1.Protocol rule)])
  end.

Definition actionSwitch (rule : v1alpha1.IngressNodeFirewallProtocolRule)
           (i : nat) (rules : BpfRulesValSt) : BpfRulesValSt + error :=
  match v1alpha1.Action rule with
  | v1alpha1.IngressNodeFirewallAllow => inl (setRule i (BpfRuleTypeSt.setAction xdpAllow) rules)
  | v1alpha1.IngressNodeFirewallDeny => inl (setRule i (BpfRuleTypeSt.setAction xdpDeny) rules)
  | v1alpha1.ActionOther _ =>
      inr (Errorf "Failed invalid action %v" [OAction (v1alpha1.Action rule)])
  end.

(** The loop over [FirewallProtocolRules], from index [i] on: the filled
    value, or the way the call ends.  The first statement of the body
    indexes the array, which panics out of range. *)
Fixpoint parseRules (rs : list v1alpha1.IngressNodeFirewallProtocolRule) (i : nat)
         (rules : BpfRulesValSt) : BpfRulesValSt + outcome :=
  match rs with
  | [] => inl rules
  | rule :: rs' =>
      if negb (i <? length (Rules rules))%nat then
        inr (Panic (IndexOutOfRange i (length (Rules rules))))
      else
        let rules := setRule i (BpfRuleTypeSt.setRuleId (v1alpha1.Order rule)) rules in
        match protocolSwitch rule i rules with
        | inr err => inr (ReturnErr err)
        | inl rules =>
            match actionSwitch rule i rules with
            | inr err => inr (ReturnErr err)
            | inl rules => parseRules rs' (S i) rules
            end
        end
  end.

(** The loop over [SourceCIDRs]; [key] is declared before the loop and is
    written in place on every turn. *)
Fixpoint applyCIDRs (cidrs : list string) (isDelete : bool) (rules : BpfRulesValSt)
         (key : BpfBpfLpmIpKeySt) (st : State) : outcome * State :=
  match cidrs with
  | [] => (ReturnNil, st)
  | cidr :: cidrs' =>
      match ParseCIDR cidr with
      | inr err => (ReturnErr (Errorf "Failed to parse SourceCIDRs: %v" [OErr err]), st)
      | inl (ip, mask) =>
          let data :=
            match To4 ip with
            | Some ip4 => copy (IpData key) ip4
            | None => copy (IpData key) (match To16 ip with Some p => p | None => [] end)
            end in
          let '(pfLen, _) := Mask_Size mask in
          let key := {| PrefixLen := pfLen mod 2 ^ 32; IpData := data |} in
          if isDelete then
            let st := logPrintf "Deleting ingress firewall rules for key %v"
                        [OKey (PrefixLen key) (IpData key)] st in
            match Map_Delete key (kernel st) with
            | (Some err, k) =>
                (ReturnErr (Errorf "Failed Deleting ingress firewall rules: %v" [OErr err]),
                 setKernel k st)
            | (None, k) => applyCIDRs cidrs' isDelete rules key (setKernel k st)
            end
          else
            let st := logPrintf "Creating ingress firewall rules for key %v"
                        [OKey (PrefixLen key) (IpData key)] st in
            match Map_Update key rules (kernel st) with
            | (Some err, k) =>
                (ReturnErr (Errorf "Failed Adding/Updating ingress firewall rules: %v" [OErr err]),
                 setKernel k st)
            | (None, k) => applyCIDRs cidrs' isDelete rules key (setKernel k st)
            end
      end
  end.

Definition makeIngressFwRulesMap (ingFirewallConfig : v1alpha1.IngressNodeFirewallRules)
           (isDelete : bool) (st : State) : outcome * State :=
  let rules := BpfRulesValSt_zero maxRules in
  let rules :=
    setNumRules (Z.of_nat (length (v1alpha1.FirewallProtocolRules ingFirewallConfig)) mod 2 ^ 32)
      rules in
  match parseRules (v1alpha1.FirewallProtocolRules ingFirewallConfig) 0 rules with
  | inr out => (out, st)
  | inl rules =>
      applyCIDRs (v1alpha1.SourceCIDRs ingFirewallConfig) isDelete rules BpfBpfLpmIpKeySt_zero st
  end.
End RuleCompiler.

(** ** The attachment manager *)

(** [path.Join(dir, name)] for a clean [dir] and a [name] without slash *)
Definition path_Join (dir name : string) : string := dir ++ "/" ++ name.

(** [l.Unpin()]: remove the pin, forget the path; no pin is no error.  The
    removal itself is taken to succeed ([cleanup] drops the error). *)
Definition Unpin (l : nat) (k : Kernel) : Kernel :=
  match xdp_links k !! l with
  | Some x =>
      match pinnedPath x with
      | Some p =>
          setBpffs (bpffs k ∖ {[p]})
            (setXdpLinks (<[l := {| ifindex := ifindex x; pinnedPath := None; fd_open := fd_open x |}]>
                            (xdp_links k)) k)
      | None => k
      end
  | None => k
  end.

(** [l.Close()] *)
Definition Close (l : nat) (k : Kernel) : Kernel :=
  match xdp_links k !! l with
  | Some x =>
      setXdpLinks (<[l := {| ifindex := ifindex x; pinnedPath := pinnedPath x; fd_open := false |}]>
                     (xdp_links k)) k
  | None => k
  end.

(** [infc.objs.Close()] *)
Definition objs_Close (k : Kernel) : Kernel := setObjsOpen false k.

(** The body of the loop of [cleanup]: [l.Unpin(); l.Close()], both errors
    dropped. *)
Definition release (k : Kernel) (l : nat) : Kernel := Close l (Unpin l k).

(** cleanup will delete all link objects for all interfaces and remove all
    the maps *)
Definition cleanup (st : State) : State :=
  let k := fold_left release (links (infc st)) (kernel st) in
  setKernel (objs_Close k) st.

Section AttachmentManager.
(** The kernel's verdict on [link.AttachXDP] for an interface index and on
    [l.Pin] for a link and a path, in a given kernel state. *)
Variable attach_error : Kernel -> Z -> option liberror.
Variable pin_error : Kernel -> nat -> string -> option liberror.

(** [link.AttachXDP]: a new link object bound to the interface *)
Definition AttachXDP (Interface_ : Z) (k : Kernel) : (nat + liberror) * Kernel :=
  match attach_error k Interface_ with
  | Some err => (inr err, k)
  | None =>
      (inl (length (xdp_links k)),
       setXdpLinks (xdp_links k ++ [{| ifindex := Interface_; pinnedPath := None; fd_open := true |}]) k)
  end.

(** [l.Pin(path)] *)
Definition Pin (l : nat) (path : string) (k : Kernel) : option liberror * Kernel :=
  match pin_error k l path with
  | Some err => (Some err, k)
  | None =>
      (None,
       setBpffs ({[path]} ∪ bpffs k)
         (setXdpLinks
            (alter (fun x => {| ifindex := ifindex x; pinnedPath := Some path; fd_open := fd_open x |})
               l (xdp_links k)) k))
  end.

Fixpoint IngressNodeFwAttach (ifacesName : list string) (isDelete : bool) (st : State)
  : outcome * State :=
  match ifacesName with
  | [] => (ReturnNil, st)
  | ifaceName :: ifacesName' =>
      match InterfaceByName (interfaces (kernel st)) ifaceName with
      | inr err =>
          (ReturnErr (Errorf "lookup network iface %q: %s" [OStr ifaceName; OErr err]), st)
      | inl iface =>
          if negb isDelete then
            match AttachXDP (Index iface) (kernel st) with
            | (inr err, k) =>
                (ReturnErr (Errorf "could not attach XDP program: %s" [OErr err]), setKernel k st)
            | (inl l, k) =>
                let st := setKernel k st in
                let lPinDir := path_Join (pinPath (infc st)) (ifaceName ++ "_link") in
                match Pin l lPinDir (kernel st) with
                | (Some err, k) =>
                    (ReturnErr (Errorf "failed to pin link to pinDir %s: %s" [OStr lPinDir; OErr err]),
                     setKernel k st)
                | (None, k) =>
                    let st := setKernel k st in
                    let st := setLinks (links (infc st) ++ [l]) st in
                    let st := logPrintf "Attached IngressNode Firewall program to iface %q (index %d)"
                                [OStr (Name iface); OInt (Index iface)] st in
                    IngressNodeFwAttach ifacesName' isDelete st
                end
            end
          else
            let st := logPrintf "Unattaching IngressNode Firewall program from iface %q (index %d)"
                        [OStr (Name iface); OInt (Index iface)] st in
            let st := cleanup st in
            IngressNodeFwAttach ifacesName' isDelete st
      end
  end.
End AttachmentManager.

(** ** Decimal port text

    What the port text means: a decimal integer is a non-empty string of
    the digits 0 to 9, read in base ten. *)

Definition isDigit (c : ascii) : bool := (48 <=? u8 c) && (u8 c <=? 57).

Fixpoint allDigits (s : string) : bool :=
  match s with
  | EmptyString => true
  | String c s' => isDigit c && allDigits s'
  end.

Definition isDecimal (s : string) : bool :=
  match s with
  | EmptyString => false
  | _ => allDigits s
  end.

Fixpoint decimalFrom (s : string) (acc : Z) : Z :=
  match s with
  | EmptyString => acc
  | String c s' => decimalFrom s' (acc * 10 + (u8 c - 48))
  end.

Definition decimalValue (s : string) : Z := decimalFrom s 0.

(** A port number in text: a decimal integer of at most 65535. *)
Definition isPort (s : string) : Prop := isDecimal s = true /\ decimalValue s <= 65535.

(** A packet "decodes as Ethernet carrying IPv4 and TCP": among the
    decoded layers there are an Ethernet, an IPv4 and a TCP layer, and none
    of the other layers the reader prints. *)
Definition EthernetIPv4TCP (decoded : list Layer) (src dst : list byte) (sp dp : Z) : Prop :=
  PacketLayer decoded LayerTypeEthernet = Some Ethernet /\
  PacketLayer decoded LayerTypeIPv4 = Some (IPv4 src dst) /\
  PacketLayer decoded LayerTypeTCP = Some (TCP sp dp) /\
  PacketLayer decoded LayerTypeIPv6 = None /\
  PacketLayer decoded LayerTypeUDP = None /\
  PacketLayer decoded LayerTypeSCTP = None /\
  PacketLayer decoded LayerTypeICMPv4 = None /\
  PacketLayer decoded LayerTypeICMPv6 = None.

(** ** A sample node and packet for the examples

    A TCP SYN from 10.0.0.1:1234 to 10.0.0.2:80 in an Ethernet frame of 54
    bytes, what the packet library decodes from it, and a node whose
    interface 5 is eth0. *)
Definition synPacket : list byte :=
  [x02; x00; x00; x00; x00; x02;  x02; x00; x00; x00; x00; x01;  x08; x00;
   x45; x00; x00; x28; x00; x00; x40; x00; x40; x06; x26; xce;
   x0a; x00; x00; x01;  x0a; x00; x00; x02;
   x04; xd2; x00; x50;  x00; x00; x00; x00;  x00; x00; x00; x00;
   x50; x02; xff; xff; x96; xbe; x00; x00].

Definition sampleNewPacket (packet : list byte) : list Layer :=
  if decide (packet = synPacket)
  then [Ethernet; IPv4 [x0a; x00; x00; x01] [x0a; x00; x00; x02]; TCP 1234 80]
  else [OtherLayer "DecodeFailure"].

Definition eth0 : Interface := {| Name := "eth0"; Index := 5 |}.

(** header {ifIndex: 5, ruleId: 1, action: Deny, pktLength: 54} and the packet *)
Definition synRecord : Record_ :=
  {| RawSample := ([x05; x00; x01; x00; x01; x00; x36; x00] ++ synPacket)%list;
     LostSamples := 0 |}.

Definition lostRecord : Record_ := {| RawSample := []; LostSamples := 3 |}.

Definition noSinks : sinks := {| stdlog := []; audit := [] |}.

(** ** Rules the compiler rejects

    A rule has an unknown protocol tag, an unknown action value, or, for
    the protocols that carry ports, a port text that [parseDstPorts]
    rejects.  (The port text of an ICMP or ICMPv6 rule is never read.) *)

Definition unknownProtocol (rule : v1alpha1.IngressNodeFirewallProtocolRule) : bool :=
  match v1alpha1.Protocol rule with v1alpha1.ProtocolTypeOther _ => true | _ => false end.

Definition unknownAction (rule : v1alpha1.IngressNodeFirewallProtocolRule) : bool :=
  match v1alpha1.Action rule with v1alpha1.ActionOther _ => true | _ => false end.

Definition carriesPorts (rule : v1alpha1.IngressNodeFirewallProtocolRule) : bool :=
  match v1alpha1.Protocol rule with
  | v1alpha1.ProtocolTypeTCP | v1alpha1.ProtocolTypeUDP | v1alpha1.ProtocolTypeSCTP => true
  | _ => false
  end.

Definition unparseablePorts (rule : v1alpha1.IngressNodeFirewallProtocolRule) : bool :=
  carriesPorts rule &&
  match parseDstPorts (v1alpha1.Ports rule) with (_, _, Some _) => true | _ => false end.

Definition rejected (rule : v1alpha1.IngressNodeFirewallProtocolRule) : bool :=
  unknownProtocol rule || unknownAction rule || unparseablePorts rule.

(** ** A sample controller and policy for the examples

    A freshly created controller on a node with interface eth0, an empty
    table and nothing attached; a capacity of 100 rules per value; the
    results of [net.ParseCIDR] on the ranges the examples use. *)
Definition pinDir : string := "/sys/fs/bpf/xdp_ingress_node_firewall_process".

Definition freshState : State :=
  {| infc := {| links := []; pinPath := pinDir |};
     kernel := {| interfaces := [eth0]; table := ∅; objs_open := true;
                  xdp_links := []; bpffs := ∅ |};
     log := [] |}.

Definition sampleMaxRules : nat := 100.

Definition sampleParseCIDR (s : string) : (list byte * list byte) + liberror :=
  if String.eqb s "10.0.0.0/8"
  then inl ((repeat x00 10 ++ [xff; xff; x0a; x00; x00; x00])%list, [xff; x00; x00; x00])
  else inr (ErrParseCIDR s).

Definition tcpRule (order : Z) (ports : string) : v1alpha1.IngressNodeFirewallProtocolRule :=
  {| v1alpha1.Order := order; v1alpha1.Protocol := v1alpha1.ProtocolTypeTCP;
     v1alpha1.Ports := ports; v1alpha1.ICMPType := 0; v1alpha1.ICMPCode := 0;
     v1alpha1.Action := v1alpha1.IngressNodeFirewallAllow |}.

Definition greRule : v1alpha1.IngressNodeFirewallProtocolRule :=
  {| v1alpha1.Order := 101; v1alpha1.Protocol := v1alpha1.ProtocolTypeOther "gre";
     v1alpha1.Ports := ""; v1alpha1.ICMPType := 0; v1alpha1.ICMPCode := 0;
     v1alpha1.Action := v1alpha1.IngressNodeFirewallAllow |}.

Definition policy (rules : list v1alpha1.IngressNodeFirewallProtocolRule)
  : v1alpha1.IngressNodeFirewallRules :=
  {| v1alpha1.SourceCIDRs := ["10.0.0.0/8"]; v1alpha1.FirewallProtocolRules := rules |}.

(** A link is released: it has no pin and its descriptor is closed. *)
Definition released (k : Kernel) (l : nat) : Prop :=
  forall x, xdp_links k !! l = Some x -> pinnedPath x = None /\ fd_open x = false.

(** Full cleanup of a controller state [st], as seen in the kernel [k']
    it leaves: the table and program objects are closed, and every link of
    the registry is closed and unpinned, its pin gone from the file system. *)
Definition fullCleanup (st : State) (k' : Kernel) : Prop :=
  objs_open k' = false /\
  forall l x, l ∈ links (infc st) -> xdp_links (kernel st) !! l = Some x ->
    xdp_links k' !! l = Some {| ifindex := ifindex x; pinnedPath := None; fd_open := false |} /\
    forall p, pinnedPath x = Some p -> p ∉ bpffs k'.

(** Whether an interface name resolves on the node. *)
Definition resolves (ifaces : list Interface) (name : string) : bool :=
  match InterfaceByName ifaces name with inl _ => true | inr _ => false end.

(** The names [names] were attached and registered between [st] and [st']:
    the registry grew by one handle per name, in order, and each handle is a
    link on the interface of its name, open, and pinned under the pin
    directory at the name followed by "_link". *)
Definition attachedAndRegistered (st st' : State) (names : list string) : Prop :=
  exists handles,
    links (infc st') = (links (infc st) ++ handles)%list /\
    length handles = length names /\
    forall i name l, names !! i = Some name -> handles !! i = Some l ->
      exists iface,
        InterfaceByName (interfaces (kernel st)) name = inl iface /\
        xdp_links (kernel st') !! l =
          Some {| ifindex := Index iface;
                  pinnedPath := Some (path_Join (pinPath (infc st)) (name ++ "_link"));
                  fd_open := true |} /\
        path_Join (pinPath (infc st)) (name ++ "_link") ∈ bpffs (kernel st').

(** A kernel for the examples: it refuses to attach through closed
    objects and to an interface that already has a live link, and it
    refuses a pin on a path that is taken. *)
Definition sampleAttachError (k : Kernel) (Interface_ : Z) : option liberror :=
  if negb (objs_open k) then Some ErrClosed
  else if existsb (fun x => (ifindex x =? Interface_) && fd_open x) (xdp_links k)
       then Some (ErrKernel "EBUSY")
       else None.

Definition samplePinError (k : Kernel) (l : nat) (path : string) : option liberror :=
  if decide (path ∈ bpffs k) then Some (ErrKernel "EEXIST") else None.

(** The controller after [IngressNodeFwAttach(["eth0"], false)] on the
    fresh one: link 0 on interface 5, pinned, registered. *)
Definition attachedState : State :=
  {| infc := {| links := [0%nat]; pinPath := pinDir |};
     kernel := {| interfaces := [eth0]; table := ∅; objs_open := true;
                  xdp_links := [{| ifindex := 5;
                                   pinnedPath := Some (pinDir ++ "/eth0_link");
                                   fd_open := true |}];
                  bpffs := {[ pinDir ++ "/eth0_link" ]} |};
     log := [Printf "Attached IngressNode Firewall program to iface %q (index %d)"
               [OStr "eth0"; OInt 5]] |}.

(** ** The lines of the layers, as a list

    The layer types the reader looks for, in the order of its checks, and
    the line it writes for a layer of each. *)
Definition printedTypes : list LayerType :=
  [LayerTypeIPv4; LayerTypeIPv6; LayerTypeTCP; LayerTypeUDP; LayerTypeSCTP;
   LayerTypeICMPv4; LayerTypeICMPv6].

Definition layerLine (l : Layer) : option string :=
  match l with
  | IPv4 src dst =>
      Some (String "009" "ipv4 src addr " ++ IP_String src ++ " dst addr " ++ IP_String dst ++ String "010" "")
  | IPv6 src dst =>
      Some (String "009" "ipv6 src addr " ++ IP_String src ++ " dst addr " ++ IP_String dst ++ String "010" "")
  | TCP sp dp =>
      Some (String "009" "tcp srcPort " ++ itoa sp ++ " dstPort " ++ itoa dp ++ String "010" "")
  | UDP sp dp =>
      Some (String "009" "udp srcPort " ++ itoa sp ++ " dstPort " ++ itoa dp ++ String "010" "")
  | SCTP sp dp =>
      Some (String "009" "sctp srcPort " ++ itoa sp ++ " dstPort " ++ itoa dp ++ String "010" "")
  | ICMPv4 tc =>
      Some (String "009" "icmpv4 type " ++ itoa (TypeCode_Type tc) ++ " code " ++ itoa (TypeCode_Code tc) ++ String "010" "")
  | ICMPv6 tc =>
      Some (String "009" "icmpv6 type " ++ itoa (TypeCode_Type tc) ++ " code " ++ itoa (TypeCode_Code tc) ++ String "010" "")
  | Ethernet | OtherLayer _ => None
  end.

(** The layers of the printed types that a packet has, first of each type. *)
Definition presentLayers (decoded : list Layer) : list Layer :=
  omap (PacketLayer decoded) printedTypes.

Definition isClosed (r : readResult) : bool :=
  match r with ReadClosed => true | _ => false end.

(** The packet length field of a raw sample of at least eight bytes *)
Definition rawPktLength (RawSample : list byte) : Z :=
  idx RawSample 6 + 256 * idx RawSample 7.

(** ** net.CIDRMask

    The mask [net.ParseCIDR] builds for a prefix length: [ones] one bits
    followed by zero bits, [bits] bits in all (32 or 128); [None] is nil. *)
Fixpoint CIDRMask_loop (l : nat) (n : Z) : list byte :=
  match l with
  | O => []
  | S l' =>
      if 8 <=? n then xff :: CIDRMask_loop l' (n - 8)
      else byte_of_Z (Z.lxor 255 (Z.shiftr 255 n)) :: CIDRMask_loop l' 0
  end.

Definition CIDRMask (ones bits : Z) : option (list byte) :=
  if negb (bits =? 32) && negb (bits =? 128) then None
  else if (ones <? 0) || (bits <? ones) then None
  else Some (CIDRMask_loop (Z.to_nat (bits / 8)) ones).

(** ** The entry of a rule

    What an accepted rule looks like in the table: the rule id is the
    order, the protocol is the IP protocol number, the ports are those of the
    port text for TCP, UDP and SCTP and zero otherwise, type and code are
    those of the rule for ICMP and ICMPv6 and zero otherwise, the action is
    the XDP verdict. *)
Definition protocolNumber (p : v1alpha1.IngressNodeFirewallRuleProtocolType) : Z :=
  match p with
  | v1alpha1.ProtocolTypeTCP => IPPROTO_TCP
  | v1alpha1.ProtocolTypeUDP => IPPROTO_UDP
  | v1alpha1.ProtocolTypeSCTP => IPPROTO_SCTP
  | v1alpha1.ProtocolTypeICMP => IPPROTO_ICMP
  | v1alpha1.ProtocolTypeICMPv6 => IPPROTO_ICMPV6
  | v1alpha1.ProtocolTypeOther _ => 0
  end.

Definition compiledEntry (rule : v1alpha1.IngressNodeFirewallProtocolRule) : BpfRuleTypeSt.t :=
  let '(start, end_, _) := parseDstPorts (v1alpha1.Ports rule) in
  {| BpfRuleTypeSt.RuleId := v1alpha1.Order rule;
     BpfRuleTypeSt.Protocol := protocolNumber (v1alpha1.Protocol rule);
     BpfRuleTypeSt.DstPortStart := if carriesPorts rule then start else 0;
     BpfRuleTypeSt.DstPortEnd := if carriesPorts rule then end_ else 0;
     BpfRuleTypeSt.IcmpType :=
       if carriesPorts rule || unknownProtocol rule then 0 else v1alpha1.ICMPType rule;
     BpfRuleTypeSt.IcmpCode :=
       if carriesPorts rule || unknownProtocol rule then 0 else v1alpha1.ICMPCode rule;
     BpfRuleTypeSt.Action :=
       match v1alpha1.Action rule with
       | v1alpha1.IngressNodeFirewallAllow => xdpAllow
       | v1alpha1.IngressNodeFirewallDeny => xdpDeny
       | v1alpha1.ActionOther _ => 0
       end |}.

(** The value of a rule list in an array of [maxRules] entries *)
Definition compiledValue (maxRules : nat) (rs : list v1alpha1.IngressNodeFirewallProtocolRule)
  : BpfRulesValSt :=
  {| NumRules := Z.of_nat (length rs) mod 2 ^ 32;
     Rules := (map compiledEntry rs ++ repeat BpfRuleTypeSt.zero (maxRules - length rs))%list |}.

Definition accepted (rs : list v1alpha1.IngressNodeFirewallProtocolRule) : bool :=
  forallb (fun r => negb (rejected r)) rs.

(** The keys a stretch of the log shows, as the table sees them: prefix
    length and the address bits within the prefix. *)
Definition loggedEntry (line : logline) : option (Z * list byte) :=
  match loperands line with
  | [OKey p d] => Some (p, maskData d p)
  | _ => None
  end.

(** The results of [net.ParseCIDR] on an IPv6 range as well: the address
    in 16 bytes and a mask of 16 bytes. *)
Definition sampleParseCIDR6 (s : string) : (list byte * list byte) + liberror :=
  if String.eqb s "2001:db8::/32"
  then inl (([x20; x01; x0d; xb8] ++ repeat x00 12)%list,
            ([xff; xff; xff; xff] ++ repeat x00 12)%list)
  else sampleParseCIDR s.

(** A source range the table takes: it parses, and the prefix length of
    its mask fits the 128 bits of the key. *)
Definition fitsKey (ParseCIDR : string -> (list byte * list byte) + liberror) (cidr : string)
  : Prop :=
  exists ip mask, ParseCIDR cidr = inl (ip, mask) /\ fst (Mask_Size mask) mod 2 ^ 32 <= 128.

(** The call ended on the error of [l.Pin]. *)
Definition isPinFailure (out : outcome) : bool :=
  match out with
  | ReturnErr (Errorf format _) => String.eqb format "failed to pin link to pinDir %s: %s"
  | _ => false
  end.



(** The 16 bytes of an address in a fresh key: the 4 bytes of an IPv4
    address followed by zeros, the 16 bytes of any other address. *)
Definition addr16 (ip : list byte) : list byte :=
  match To4 ip with
  | Some ip4 => (ip4 ++ repeat x00 12)%list
  | None => match To16 ip with Some p => p | None => repeat x00 16 end
  end.

(** The key of a source range, from what [net.ParseCIDR] gave for it. *)
Definition rangeKey (ip mask : list byte) : BpfBpfLpmIpKeySt :=
  {| PrefixLen := fst (Mask_Size mask) mod 2 ^ 32; IpData := addr16 ip |}.

(** The line a delete call logs for a key. *)
Definition deletingLine (key : BpfBpfLpmIpKeySt) : logline :=
  Printf "Deleting ingress firewall rules for key %v" [OKey (PrefixLen key) (IpData key)].

(* ================================================================== *)
(** * Properties *)

(** ** Port text *)

Lemma cutoff_10 : cutoff 10 = 1844674407370955162.
Proof. reflexivity. Qed.

Lemma maxVal_16 : maxVal 16 = 65535.
Proof. reflexivity. Qed.

Lemma decimalFrom_mono s : forall acc, allDigits s = true -> 0 <= acc -> acc <= decimalFrom s acc.
Proof.
  induction s as [|c s IH]; intros acc Hd Hacc; simpl in *; [lia|].
  apply andb_prop in Hd as [Hc Hs]. unfold isDigit in Hc.
  apply andb_prop in Hc as [Hlo Hhi]. apply Z.leb_le in Hlo, Hhi.
  specialize (IH (acc * 10 + (u8 c - 48)) Hs). lia.
Qed.

(** On digits the loop computes the decimal value, and reports a range
    error exactly when the value passes 65535. *)
Lemma ParseUint_loop_digits s : forall n,
  allDigits s = true -> 0 <= n <= 65535 ->
  ParseUint_loop 10 16 s n =
  if decimalFrom s n <=? 65535 then (decimalFrom s n, None) else (65535, Some ErrRange).
Proof.
  induction s as [|c s IH]; intros n Hd Hn; simpl in *.
  - destruct (Z.leb_spec n 65535); [reflexivity|lia].
  - apply andb_prop in Hd as [Hc Hs]. unfold isDigit in Hc. rewrite Hc.
    apply andb_prop in Hc as [Hlo Hhi]. apply Z.leb_le in Hlo, Hhi.
    rewrite cutoff_10, maxVal_16.
    destruct (Z.leb_spec 10 (u8 c - 48)); [lia|].
    destruct (Z.leb_spec 1844674407370955162 n); [lia|].
    rewrite (Z.mod_small (n * 10)) by lia.
    rewrite (Z.mod_small (n * 10 + (u8 c - 48))) by lia.
    destruct (Z.ltb_spec (n * 10 + (u8 c - 48)) (n * 10)); [lia|]. simpl.
    destruct (Z.ltb_spec 65535 (n * 10 + (u8 c - 48))).
    + pose proof (decimalFrom_mono s (n * 10 + (u8 c - 48)) Hs).
      destruct (Z.leb_spec (decimalFrom s (n * 10 + (u8 c - 48))) 65535); [lia|reflexivity].
    + apply IH; [assumption|lia].
Qed.

(** The loop accepts nothing but digits. *)
Lemma ParseUint_loop_accepts s : forall n v,
  0 <= n <= 65535 -> ParseUint_loop 10 16 s n = (v, None) ->
  allDigits s = true /\ v = decimalFrom s n /\ v <= 65535.
Proof.
  induction s as [|c s IH]; intros n v Hn H; simpl in *.
  - inversion H; subst. repeat split; lia.
  - unfold isDigit.
    destruct ((48 <=? u8 c) && (u8 c <=? 57)) eqn:Hc.
    + apply andb_prop in Hc as [Hlo Hhi]. apply Z.leb_le in Hlo, Hhi.
      rewrite cutoff_10, maxVal_16 in H.
      destruct (Z.leb_spec 10 (u8 c - 48)); [lia|].
      destruct (Z.leb_spec 1844674407370955162 n); [lia|].
      rewrite (Z.mod_small (n * 10)) in H by lia.
      rewrite (Z.mod_small (n * 10 + (u8 c - 48))) in H by lia.
      destruct (Z.ltb_spec (n * 10 + (u8 c - 48)) (n * 10)); [lia|]. simpl in H.
      destruct (Z.ltb_spec 65535 (n * 10 + (u8 c - 48))); [discriminate|].
      apply IH in H; [|lia]. simpl. exact H.
    + destruct ((97 <=? lower (u8 c)) && (lower (u8 c) <=? 122)) eqn:Hl.
      * apply andb_prop in Hl as [Hlo Hhi]. apply Z.leb_le in Hlo, Hhi.
        destruct (Z.leb_spec 10 (lower (u8 c) - 97 + 10)); [discriminate|lia].
      * discriminate.
Qed.

Lemma ParseUint_decimal s :
  isPort s -> ParseUint s 10 16 = (decimalValue s, None).
Proof.
  intros [Hd Hv]. unfold ParseUint, decimalValue in *.
  destruct s as [|c s]; [discriminate|].
  rewrite ParseUint_loop_digits by (assumption || lia).
  destruct (Z.leb_spec (decimalFrom (String c s) 0) 65535); [reflexivity|lia].
Qed.

Lemma ParseUint_accepts s v :
  ParseUint s 10 16 = (v, None) -> isPort s /\ v = decimalValue s.
Proof.
  unfold ParseUint, isPort, decimalValue. destruct s as [|c s]; [discriminate|].
  destruct (ParseUint_loop 10 16 (String c s) 0) as [n [mk|]] eqn:E; [discriminate|].
  intros H; inversion H; subst.
  apply ParseUint_loop_accepts in E as (Ha & Hb & Hc); [|lia].
  subst. auto.
Qed.

Lemma decimalValue_range s : isPort s -> 0 <= decimalValue s <= 65535.
Proof.
  intros [Hd Hv]. split; [|assumption].
  apply decimalFrom_mono; [|lia]. destruct s; [discriminate|exact Hd].
Qed.

Lemma IndexByte_digits s : allDigits s = true -> IndexByte s hyphen = None.
Proof.
  induction s as [|c s IH]; intros Hd; simpl in *; [reflexivity|].
  apply andb_prop in Hd as [Hc Hs]. rewrite (IH Hs).
  destruct (Ascii.eqb_spec c hyphen) as [->|]; [discriminate|reflexivity].
Qed.

Lemma IndexByte_append a sep b :
  IndexByte a sep = None -> IndexByte (a ++ String sep b) sep = Some (String.length a).
Proof.
  induction a as [|c a IH]; simpl; intros H.
  - rewrite Ascii.eqb_refl. reflexivity.
  - destruct (Ascii.eqb c sep); [discriminate|].
    destruct (IndexByte a sep); [discriminate|]. rewrite IH; reflexivity.
Qed.

(** The first separator cuts the string in two. *)
Lemma IndexByte_cut s sep : forall m,
  IndexByte s sep = Some m ->
  exists a b, s = a ++ String sep b /\ IndexByte a sep = None /\
              substring 0 m s = a /\ substring (S m) (String.length s - S m) s = b.
Proof.
  induction s as [|c s IH]; simpl; intros m H; [discriminate|].
  destruct (Ascii.eqb_spec c sep) as [->|Hne].
  - inversion H; subst. exists EmptyString, s. simpl.
    repeat split. rewrite Nat.sub_0_r.
    clear. induction s as [|c s IH]; simpl; [reflexivity|]. f_equal. exact IH.
  - destruct (IndexByte s sep) as [m'|] eqn:E; [|discriminate].
    inversion H; subst. destruct (IH m' eq_refl) as (a & b & Hs & Ha & H1 & H2).
    exists (String c a), b. simpl. rewrite Ha, H1.
    destruct (Ascii.eqb_spec c sep); [contradiction|].
    repeat split; [rewrite Hs at 1; reflexivity|exact H2].
Qed.

Lemma length_append a b : String.length (a ++ b) = (String.length a + String.length b)%nat.
Proof. induction a; simpl; auto. Qed.

Lemma cut_unique sep a : forall a' b b',
  (a ++ String sep b)%string = (a' ++ String sep b')%string ->
  IndexByte a sep = None -> IndexByte a' sep = None -> a = a' /\ b = b'.
Proof.
  induction a as [|c a IH]; intros [|c' a'] b b' Hs Ha Ha'; simpl in *.
  - inversion Hs; auto.
  - inversion Hs; subst. rewrite Ascii.eqb_refl in Ha'. discriminate.
  - inversion Hs; subst. rewrite Ascii.eqb_refl in Ha. discriminate.
  - inversion Hs; subst.
    destruct (Ascii.eqb c' sep); [discriminate|].
    destruct (IndexByte a sep) eqn:E1; [discriminate|].
    destruct (IndexByte a' sep) eqn:E2; [discriminate|].
    destruct (IH a' b b') as [-> ->]; auto.
Qed.

Lemma SplitN_cut a b :
  IndexByte a hyphen = None -> SplitN (a ++ String hyphen b) hyphen 2 = [a; b].
Proof.
  intros Ha. unfold SplitN.
  destruct (Nat.ltb_spec (String.length (a ++ String hyphen b) + 1) 2) as [Hlt|_].
  - rewrite length_append in Hlt. simpl in Hlt. lia.
  - simpl. pose proof (IndexByte_append a hyphen b Ha) as Hi.
    destruct (IndexByte_cut _ _ _ Hi) as (a' & b' & Hs & Ha' & H1 & H2).
    rewrite Hi, H1, H2.
    destruct (cut_unique hyphen a a' b b' Hs Ha Ha') as [-> ->]. reflexivity.
Qed.

Lemma parseDstPorts_single s :
  isPort s -> parseDstPorts s = (decimalValue s, 0, None).
Proof.
  intros Hp. unfold parseDstPorts, Contains.
  rewrite IndexByte_digits by (destruct Hp as [Hd _]; destruct s; [discriminate|exact Hd]).
  simpl. rewrite (ParseUint_decimal s Hp).
  pose proof (decimalValue_range s Hp). rewrite Z.mod_small by lia. reflexivity.
Qed.

Lemma parseDstPorts_range a b :
  isPort a -> isPort b ->
  parseDstPorts (a ++ "-" ++ b) = (decimalValue a, decimalValue b, None).
Proof.
  intros Ha Hb. unfold parseDstPorts, Contains.
  assert (Hia : IndexByte a hyphen = None).
  { apply IndexByte_digits. destruct Ha as [Hd _]. destruct a; [discriminate|exact Hd]. }
  change (a ++ "-" ++ b)%string with (a ++ String hyphen b)%string.
  rewrite (IndexByte_append a hyphen b Hia). simpl negb. cbv iota.
  rewrite (SplitN_cut a b Hia).
  rewrite (ParseUint_decimal a Ha), (ParseUint_decimal b Hb).
  pose proof (decimalValue_range a Ha). pose proof (decimalValue_range b Hb).
  rewrite !Z.mod_small by lia. reflexivity.
Qed.

(** Whatever [parseDstPorts] accepts has one of the two shapes. *)
Lemma parseDstPorts_accepts s n m :
  parseDstPorts s = (n, m, None) ->
  (isPort s /\ n = decimalValue s /\ m = 0) \/
  (exists a b, s = (a ++ "-" ++ b)%string /\ isPort a /\ isPort b /\
               n = decimalValue a /\ m = decimalValue b).
Proof.
  unfold parseDstPorts, Contains.
  destruct (IndexByte s hyphen) as [i|] eqn:Ei; simpl negb; cbv iota.
  - destruct (IndexByte_cut _ _ _ Ei) as (a & b & Hs & Ha & _ & _).
    subst s. rewrite (SplitN_cut a b Ha).
    destruct (ParseUint a 10 16) as [va [ea|]] eqn:Ea; [discriminate|].
    destruct (ParseUint b 10 16) as [vb [eb|]] eqn:Eb; [discriminate|].
    intros H. apply ParseUint_accepts in Ea as [Hpa ->]. apply ParseUint_accepts in Eb as [Hpb ->].
    pose proof (decimalValue_range a Hpa). pose proof (decimalValue_range b Hpb).
    rewrite !Z.mod_small in H by lia. inversion H; subst.
    right. exists a, b. auto.
  - destruct (ParseUint s 10 16) as [v [e|]] eqn:E; [discriminate|].
    intros H. apply ParseUint_accepts in E as [Hp ->].
    pose proof (decimalValue_range s Hp). rewrite Z.mod_small in H by lia.
    inversion H; subst. left. auto.
Qed.

(** Every rejection returns zero ports. *)
Lemma parseDstPorts_total s :
  (exists n m, parseDstPorts s = (n, m, None)) \/ (exists err, parseDstPorts s = (0, 0, Some err)).
Proof.
  unfold parseDstPorts.
  destruct (negb (Contains s hyphen)).
  - destruct (ParseUint s 10 16) as [v [e|]]; eauto.
  - destruct (SplitN s hyphen 2) as [|a [|b [|c l]]]; eauto.
    destruct (ParseUint a 10 16) as [va [ea|]]; eauto.
    destruct (ParseUint b 10 16) as [vb [eb|]]; eauto.
Qed.

(** C2: a decimal port number "N" parses to (N, 0); "N-M" with two decimal
    port numbers parses to (N, M); every other text, whether non-numeric,
    out of range or with a malformed separator, is rejected with an error. *)
Theorem parseDstPorts_spec :
  (forall s, isPort s -> parseDstPorts s = (decimalValue s, 0, None)) /\
  (forall a b, isPort a -> isPort b ->
     parseDstPorts (a ++ "-" ++ b) = (decimalValue a, decimalValue b, None)) /\
  (forall s, ~ isPort s ->
     ~ (exists a b, s = (a ++ "-" ++ b)%string /\ isPort a /\ isPort b) ->
     exists err, parseDstPorts s = (0, 0, Some err)).
Proof.
  split; [exact parseDstPorts_single|]. split; [exact parseDstPorts_range|].
  intros s Hn1 Hn2. destruct (parseDstPorts_total s) as [(n & m & H)|H]; [|exact H].
  exfalso. apply parseDstPorts_accepts in H as [(Hp & _)|(a & b & Hs & Ha & Hb & _)].
  - exact (Hn1 Hp).
  - apply Hn2. exists a, b. auto.
Qed.

Lemma parseDstPorts_spec_witness :
  parseDstPorts "8080" = (8080, 0, None) /\
  parseDstPorts "80-443" = (80, 443, None) /\
  (exists err, parseDstPorts "80-http" = (0, 0, Some err)).
Proof.
  destruct parseDstPorts_spec as (H1 & H2 & H3).
  assert (P8080 : isPort "8080") by (split; [reflexivity|vm_compute; discriminate]).
  assert (P80 : isPort "80") by (split; [reflexivity|vm_compute; discriminate]).
  assert (P443 : isPort "443") by (split; [reflexivity|vm_compute; discriminate]).
  split; [exact (H1 "8080" P8080)|]. split; [exact (H2 "80" "443" P80 P443)|].
  apply H3.
  - intros [Hd _]. discriminate Hd.
  - intros (a & b & Hs & [Ha _] & [Hb _]).
    assert (Hi : IndexByte a hyphen = None)
      by (apply IndexByte_digits; destruct a; [discriminate|exact Ha]).
    destruct (cut_unique hyphen "80" a "http" b Hs eq_refl Hi) as [_ <-].
    discriminate Hb.
Defined.

(** ** The event header *)

Lemma byteZ_range b : 0 <= byteZ b < 256.
Proof.
  unfold byteZ. pose proof (Byte.to_N_bounded b) as H.
  split; [apply N2Z.is_nonneg|].
  apply N2Z.inj_le in H. change (Z.of_N 255) with 255 in H. lia.
Qed.

(** Two bytes joined with [|] and [<<8] are the little-endian sum. *)
Lemma lor_shiftl_8 x y : 0 <= x < 256 -> 0 <= y -> Z.lor x (Z.shiftl y 8) = x + 256 * y.
Proof.
  intros Hx Hy. rewrite Z.shiftl_mul_pow2 by lia.
  assert (Hl : Z.land x (y * 2 ^ 8) = 0).
  { apply Z.bits_inj'. intros n Hn. rewrite Z.land_spec, Z.bits_0.
    destruct (Z.lt_ge_cases n 8).
    - rewrite Z.mul_pow2_bits_low by lia. apply andb_false_r.
    - destruct (Z.eq_dec x 0) as [->|Hx0]; [rewrite Z.bits_0; reflexivity|].
      rewrite (Z.bits_above_log2 x n); [reflexivity|lia|].
      assert (Z.log2 x < 8) by (apply Z.log2_lt_pow2; lia). lia. }
  pose proof (Z.add_lor_land x (y * 2 ^ 8)) as H. rewrite Hl in H.
  change (2 ^ 8) with 256 in *. lia.
Qed.

Lemma Uint16_pair a b : Uint16 [a; b] = byteZ a + 256 * byteZ b.
Proof.
  unfold Uint16, idx. simpl nth.
  apply lor_shiftl_8; [apply byteZ_range|apply byteZ_range].
Qed.

Lemma ReadFull_ok src n buf :
  ReadFull src n = (buf, None) <-> (n <= length src)%nat /\ buf = firstn n src.
Proof.
  unfold ReadFull. destruct (Nat.leb_spec n (length src)) as [Hle|Hlt].
  - split; [intros H; inversion H; auto|intros [_ ->]; reflexivity].
  - split; [destruct src; discriminate|intros [Hle _]; lia].
Qed.

(** C1: a record decodes to an event exactly when it is eight header bytes
    followed by the packet (and whatever comes after it): the interface
    index is bytes 0-1 and the rule id bytes 2-3, both little-endian, the
    action is byte 4, byte 5 is padding, the packet length is bytes 6-7,
    little-endian, and the packet is exactly that many bytes after the
    header. *)
Theorem readEvent_layout (RawSample : list byte) (eventHdr : BpfEventHdrSt.t) (packet : list byte) :
  readEvent RawSample = Event eventHdr packet <->
  exists b0 b1 b2 b3 b4 b5 b6 b7 rest,
    RawSample = ([b0; b1; b2; b3; b4; b5; b6; b7] ++ packet ++ rest)%list /\
    eventHdr = {| BpfEventHdrSt.IfId := byteZ b0 + 256 * byteZ b1;
                  BpfEventHdrSt.RuleId := byteZ b2 + 256 * byteZ b3;
                  BpfEventHdrSt.Action := byteZ b4;
                  BpfEventHdrSt.PktLength := byteZ b6 + 256 * byteZ b7 |} /\
    Z.of_nat (length packet) = BpfEventHdrSt.PktLength eventHdr.
Proof.
  split.
  - unfold readEvent.
    destruct (ReadFull RawSample eventHdrSize) as [buf [e|]] eqn:Eh; [discriminate|].
    apply ReadFull_ok in Eh as [Hlen ->].
    destruct RawSample as [|b0 [|b1 [|b2 [|b3 [|b4 [|b5 [|b6 [|b7 tl]]]]]]]];
      try (exfalso; simpl in Hlen; unfold eventHdrSize in Hlen; lia).
    change (firstn eventHdrSize (b0 :: b1 :: b2 :: b3 :: b4 :: b5 :: b6 :: b7 :: tl))
      with [b0; b1; b2; b3; b4; b5; b6; b7].
    change (skipn eventHdrSize (b0 :: b1 :: b2 :: b3 :: b4 :: b5 :: b6 :: b7 :: tl)) with tl.
    change (slice [b0; b1; b2; b3; b4; b5; b6; b7] 0 2) with [b0; b1].
    change (slice [b0; b1; b2; b3; b4; b5; b6; b7] 2 4) with [b2; b3].
    change (slice [b0; b1; b2; b3; b4; b5; b6; b7] 6 8) with [b6; b7].
    change (idx [b0; b1; b2; b3; b4; b5; b6; b7] 4) with (byteZ b4).
    rewrite !Uint16_pair. cbn [BpfEventHdrSt.PktLength].
    destruct (ReadFull tl (Z.to_nat (byteZ b6 + 256 * byteZ b7))) as [p [e|]] eqn:Ep;
      [discriminate|].
    apply ReadFull_ok in Ep as [Hp ->]. intros H. inversion H; subst. clear H.
    exists b0, b1, b2, b3, b4, b5, b6, b7, (skipn (Z.to_nat (byteZ b6 + 256 * byteZ b7)) tl).
    split; [|split].
    + simpl. rewrite firstn_skipn. reflexivity.
    + reflexivity.
    + cbn [BpfEventHdrSt.PktLength]. rewrite length_firstn.
      pose proof (byteZ_range b6). pose proof (byteZ_range b7). lia.
  - intros (b0 & b1 & b2 & b3 & b4 & b5 & b6 & b7 & rest & -> & -> & Hlen).
    cbn [BpfEventHdrSt.PktLength] in Hlen. unfold readEvent.
    change (ReadFull ([b0; b1; b2; b3; b4; b5; b6; b7] ++ packet ++ rest) eventHdrSize)
      with ([b0; b1; b2; b3; b4; b5; b6; b7], @None liberror).
    change (skipn eventHdrSize ([b0; b1; b2; b3; b4; b5; b6; b7] ++ packet ++ rest))
      with (packet ++ rest)%list.
    cbv beta iota.
    change (slice [b0; b1; b2; b3; b4; b5; b6; b7] 0 2) with [b0; b1].
    change (slice [b0; b1; b2; b3; b4; b5; b6; b7] 2 4) with [b2; b3].
    change (slice [b0; b1; b2; b3; b4; b5; b6; b7] 6 8) with [b6; b7].
    change (idx [b0; b1; b2; b3; b4; b5; b6; b7] 4) with (byteZ b4).
    rewrite !Uint16_pair. cbn [BpfEventHdrSt.PktLength].
    rewrite <- Hlen, Nat2Z.id.
    assert (E : ReadFull (packet ++ rest) (length packet) = (packet, None)).
    { apply ReadFull_ok. rewrite length_app. split; [lia|].
      rewrite firstn_app, Nat.sub_diag, firstn_all.
      change (firstn 0 rest) with (@nil byte). symmetry. apply app_nil_r. }
    rewrite E. reflexivity.
Qed.

(** ** The reader task *)

(** C8: a record with a nonzero lost-sample count adds exactly one line to
    the log, the dropped-samples line with the count, and no audit line;
    the record is not decoded and the loop goes on with the next read. *)
Theorem lost_samples_one_line
  (NewPacket : list byte -> list Layer) (ifaces : list Interface)
  (record : Record_) (reads : list readResult) (s : sinks) :
  LostSamples record <> 0 ->
  let s' := {| stdlog := stdlog s ++
                 [Printf "Perf event ring buffer full, dropped %d samples"
                         [OInt (LostSamples record)]];
               audit := audit s |} in
  handleRecord NewPacket ifaces record s = s' /\
  readerLoop NewPacket ifaces (ReadRecord record :: reads) s =
  readerLoop NewPacket ifaces reads s'.
Proof.
  intros Hlost s'.
  assert (H : handleRecord NewPacket ifaces record s = s').
  { unfold handleRecord. destruct (Z.eqb_spec (LostSamples record) 0); [contradiction|].
    reflexivity. }
  split; [exact H|]. simpl. rewrite H. reflexivity.
Qed.

Lemma lost_samples_one_line_witness :
  handleRecord sampleNewPacket [eth0] lostRecord noSinks =
  {| stdlog := [Printf "Perf event ring buffer full, dropped %d samples" [OInt 3]];
     audit := [] |} /\
  readerLoop sampleNewPacket [eth0] [ReadRecord lostRecord; ReadRecord synRecord] noSinks =
  readerLoop sampleNewPacket [eth0] [ReadRecord synRecord]
    {| stdlog := [Printf "Perf event ring buffer full, dropped %d samples" [OInt 3]];
       audit := [] |}.
Proof.
  apply (lost_samples_one_line sampleNewPacket [eth0] lostRecord [ReadRecord synRecord] noSinks).
  simpl. discriminate.
Defined.

(** On Ethernet, IPv4 and TCP the reader prints the address line and the
    port line, and nothing else. *)
Lemma logLayers_ipv4_tcp decoded src dst sp dp s :
  EthernetIPv4TCP decoded src dst sp dp ->
  logLayers decoded s =
  {| stdlog := stdlog s;
     audit := audit s ++
       [String "009" "ipv4 src addr " ++ IP_String src ++ " dst addr " ++ IP_String dst ++ String "010" "";
        String "009" "tcp srcPort " ++ itoa sp ++ " dstPort " ++ itoa dp ++ String "010" ""] |}.
Proof.
  intros (_ & H4 & Ht & H6 & Hu & Hs & Hi4 & Hi6). unfold logLayers.
  rewrite H4, Ht, H6, Hu, Hs, Hi4, Hi6. unfold optionally, eventsLogger_Info. simpl.
  rewrite <- app_assoc. reflexivity.
Qed.

(** C9, as amended: an event record (no lost samples) whose header and
    packet decode, whose interface index resolves to an interface, and whose
    packet decodes as Ethernet carrying IPv4 and TCP adds exactly three
    audit lines, in this order: the summary line (rule id, action name,
    packet length, interface name), the IPv4 address line and the TCP port
    line; it adds nothing to the log. *)
Theorem ipv4_tcp_three_lines
  (NewPacket : list byte -> list Layer) (ifaces : list Interface)
  (record : Record_) (s : sinks)
  (eventHdr : BpfEventHdrSt.t) (packet : list byte) (iface : Interface)
  (src dst : list byte) (sp dp : Z) :
  LostSamples record = 0 ->
  readEvent (RawSample record) = Event eventHdr packet ->
  InterfaceByIndex ifaces (BpfEventHdrSt.IfId eventHdr) = inl iface ->
  EthernetIPv4TCP (NewPacket packet) src dst sp dp ->
  handleRecord NewPacket ifaces record s =
  {| stdlog := stdlog s;
     audit := audit s ++
       ["ruleId " ++ itoa (BpfEventHdrSt.RuleId eventHdr) ++ " action " ++
        convertXdpActionToString (BpfEventHdrSt.Action eventHdr) ++ " len " ++
        itoa (BpfEventHdrSt.PktLength eventHdr) ++ " if " ++ Name iface ++ String "010" "";
        String "009" "ipv4 src addr " ++ IP_String src ++ " dst addr " ++ IP_String dst ++ String "010" "";
        String "009" "tcp srcPort " ++ itoa sp ++ " dstPort " ++ itoa dp ++ String "010" ""] |}.
Proof.
  intros Hlost Hev Hif Hdec. unfold handleRecord.
  rewrite Hlost, Hev, Hif. simpl negb. cbv iota.
  rewrite (logLayers_ipv4_tcp _ src dst sp dp _ Hdec).
  unfold eventsLogger_Info. simpl. rewrite <- app_assoc. reflexivity.
Qed.

Lemma ipv4_tcp_three_lines_witness :
  handleRecord sampleNewPacket [eth0] synRecord noSinks =
  {| stdlog := [];
     audit := ["ruleId 1 action Drop len 54 if eth0" ++ String "010" "";
               String "009" "ipv4 src addr 10.0.0.1 dst addr 10.0.0.2" ++ String "010" "";
               String "009" "tcp srcPort 1234 dstPort 80" ++ String "010" ""] |}.
Proof.
  apply (ipv4_tcp_three_lines sampleNewPacket [eth0] synRecord noSinks
           {| BpfEventHdrSt.IfId := 5; BpfEventHdrSt.RuleId := 1;
              BpfEventHdrSt.Action := 1; BpfEventHdrSt.PktLength := 54 |}
           synPacket eth0 [x0a; x00; x00; x01] [x0a; x00; x00; x02] 1234 80).
  - reflexivity.
  - vm_compute. reflexivity.
  - reflexivity.
  - vm_compute. repeat split; reflexivity.
Defined.

(** The claim as stated fails when the interface index of the header does
    not resolve: on a node without interface 5 the same record, with the
    same Ethernet, IPv4 and TCP packet, yields no audit line at all and one
    log line. *)
Lemma ipv4_tcp_unknown_interface :
  readEvent (RawSample synRecord) =
    Event {| BpfEventHdrSt.IfId := 5; BpfEventHdrSt.RuleId := 1;
             BpfEventHdrSt.Action := 1; BpfEventHdrSt.PktLength := 54 |} synPacket /\
  EthernetIPv4TCP (sampleNewPacket synPacket) [x0a; x00; x00; x01] [x0a; x00; x00; x02] 1234 80 /\
  handleRecord sampleNewPacket [] synRecord noSinks =
  {| stdlog := [Printf "lookup network iface %d: %s" [OInt 5; OErr ErrNoSuchInterface]];
     audit := [] |}.
Proof.
  split; [vm_compute; reflexivity|]. split.
  - vm_compute. repeat split; reflexivity.
  - vm_compute. reflexivity.
Qed.

(** ** The rule compiler *)

Example makeIngressFwRulesMap_scenario :
  let '(out, st) := makeIngressFwRulesMap sampleMaxRules sampleParseCIDR
                      (policy [tcpRule 1 "80-443"]) false freshState in
  out = ReturnNil /\
  table (kernel st) !! (8, (x0a :: repeat x00 15)%list) =
  Some {| NumRules := 1;
          Rules := ({| BpfRuleTypeSt.RuleId := 1; BpfRuleTypeSt.Protocol := IPPROTO_TCP;
                       BpfRuleTypeSt.DstPortStart := 80; BpfRuleTypeSt.DstPortEnd := 443;
                       BpfRuleTypeSt.IcmpType := 0; BpfRuleTypeSt.IcmpCode := 0;
                       BpfRuleTypeSt.Action := xdpAllow |}
                    :: repeat BpfRuleTypeSt.zero 99)%list |}.
Proof. vm_compute. split; reflexivity. Qed.

(** The port text of an ICMP rule is not read. *)
Example icmp_ports_unread :
  fst (makeIngressFwRulesMap sampleMaxRules sampleParseCIDR
         (policy [{| v1alpha1.Order := 1; v1alpha1.Protocol := v1alpha1.ProtocolTypeICMP;
                     v1alpha1.Ports := "http"; v1alpha1.ICMPType := 8; v1alpha1.ICMPCode := 0;
                     v1alpha1.Action := v1alpha1.IngressNodeFirewallDeny |}])
         false freshState) = ReturnNil.
Proof. vm_compute. reflexivity. Qed.

Lemma setRule_length i f rules : length (Rules (setRule i f rules)) = length (Rules rules).
Proof. unfold setRule. simpl. apply length_alter. Qed.

Lemma protocolSwitch_length rule i rules r :
  protocolSwitch rule i rules = inl r -> length (Rules r) = length (Rules rules).
Proof.
  unfold protocolSwitch, portsCase, icmpCase.
  destruct (v1alpha1.Protocol rule);
    try destruct (parseDstPorts (v1alpha1.Ports rule)) as [[start end_] [err|]];
    intros H; inversion H; subst; rewrite ?setRule_length; reflexivity.
Qed.

Lemma actionSwitch_length rule i rules r :
  actionSwitch rule i rules = inl r -> length (Rules r) = length (Rules rules).
Proof.
  unfold actionSwitch. destruct (v1alpha1.Action rule);
    intros H; inversion H; subst; rewrite ?setRule_length; reflexivity.
Qed.

(** A rejected rule fails one of the two switches. *)
Lemma rejected_switch rule i rules :
  rejected rule = true ->
  match protocolSwitch rule i rules with
  | inr _ => True
  | inl r => exists err, actionSwitch rule i r = inr err
  end.
Proof.
  unfold rejected, unknownProtocol, unknownAction, unparseablePorts, carriesPorts.
  unfold protocolSwitch, actionSwitch, portsCase, icmpCase.
  destruct (v1alpha1.Protocol rule);
    try destruct (parseDstPorts (v1alpha1.Ports rule)) as [[start end_] [err|]];
    destruct (v1alpha1.Action rule); simpl; intros H; try discriminate; eauto.
Qed.

(** An accepted rule passes both. *)
Lemma accepted_switch rule i rules :
  rejected rule = false ->
  exists r1 r2, protocolSwitch rule i rules = inl r1 /\ actionSwitch rule i r1 = inl r2.
Proof.
  unfold rejected, unknownProtocol, unknownAction, unparseablePorts, carriesPorts.
  unfold protocolSwitch, actionSwitch, portsCase, icmpCase.
  destruct (v1alpha1.Protocol rule);
    try destruct (parseDstPorts (v1alpha1.Ports rule)) as [[start end_] [err|]];
    destruct (v1alpha1.Action rule); simpl; intros H; try discriminate; eauto.
Qed.

(** A rejected rule at an index the array has ends the loop with an error. *)
Lemma parseRules_rejects rs : forall i rules k rule,
  rs !! k = Some rule -> rejected rule = true -> (i + k < length (Rules rules))%nat ->
  exists err, parseRules rs i rules = inr (ReturnErr err).
Proof.
  induction rs as [|r0 rs IH]; intros i rules k rule Hk Hrej Hlen; [discriminate|].
  simpl. destruct (Nat.ltb_spec i (length (Rules rules))) as [_|Hge]; [|lia]. simpl.
  set (rules0 := setRule i (BpfRuleTypeSt.setRuleId (v1alpha1.Order r0)) rules).
  assert (H0 : length (Rules rules0) = length (Rules rules)) by apply setRule_length.
  destruct k as [|k].
  - inversion Hk; subst r0. pose proof (rejected_switch rule i rules0 Hrej) as Hs.
    destruct (protocolSwitch rule i rules0) as [r1|err]; [|eauto].
    destruct Hs as [err ->]. eauto.
  - destruct (protocolSwitch r0 i rules0) as [r1|err] eqn:E1; [|eauto].
    destruct (actionSwitch r0 i r1) as [r2|err] eqn:E2; [|eauto].
    apply protocolSwitch_length in E1. apply actionSwitch_length in E2.
    apply (IH (S i) r2 k rule Hk Hrej). lia.
Qed.

(** Accepted rules within the array are filled in, one entry each. *)
Lemma parseRules_accepts pre : forall post i rules,
  forallb (fun r => negb (rejected r)) pre = true ->
  (i + length pre <= length (Rules rules))%nat ->
  exists rules', parseRules (pre ++ post) i rules = parseRules post (i + length pre) rules' /\
                 length (Rules rules') = length (Rules rules).
Proof.
  induction pre as [|r0 pre IH]; intros post i rules Hok Hlen.
  - exists rules. simpl. rewrite Nat.add_0_r. auto.
  - simpl in Hok, Hlen. apply andb_prop in Hok as [H0 Hok].
    apply negb_true_iff in H0.
    change ((r0 :: pre) ++ post)%list with (r0 :: (pre ++ post))%list.
    cbn [parseRules].
    destruct (Nat.ltb_spec i (length (Rules rules))) as [_|Hge]; [|lia]. simpl negb. cbv iota.
    set (rules0 := setRule i (BpfRuleTypeSt.setRuleId (v1alpha1.Order r0)) rules).
    destruct (accepted_switch r0 i rules0 H0) as (r1 & r2 & E1 & E2). rewrite E1, E2.
    apply protocolSwitch_length in E1. apply actionSwitch_length in E2.
    assert (Hr2 : length (Rules r2) = length (Rules rules))
      by (rewrite E2, E1; apply setRule_length).
    destruct (IH post (S i) r2 Hok) as (rules' & Heq & Hl); [lia|].
    exists rules'. simpl length. rewrite Nat.add_succ_r. split; [exact Heq|congruence].
Qed.

Lemma initial_rules_length maxRules n :
  length (Rules (setNumRules n (BpfRulesValSt_zero maxRules))) = maxRules.
Proof. simpl. apply repeat_length. Qed.

(** C3, as amended: when a rule at an index below the capacity has an
    unknown protocol tag, an unknown action value or (for TCP, UDP and SCTP)
    a port text that does not parse, the compile call returns an error and
    leaves the whole state as it was: no upsert, no delete, no log line. *)
Theorem invalid_rule_rejects_call
  (maxRules : nat) (ParseCIDR : string -> (list byte * list byte) + liberror)
  (ingFirewallConfig : v1alpha1.IngressNodeFirewallRules) (isDelete : bool) (st : State)
  (i : nat) (rule : v1alpha1.IngressNodeFirewallProtocolRule) :
  v1alpha1.FirewallProtocolRules ingFirewallConfig !! i = Some rule ->
  rejected rule = true ->
  (i < maxRules)%nat ->
  exists err,
    makeIngressFwRulesMap maxRules ParseCIDR ingFirewallConfig isDelete st = (ReturnErr err, st).
Proof.
  intros Hi Hrej Hcap. unfold makeIngressFwRulesMap.
  destruct (parseRules_rejects _ 0 (setNumRules
              (Z.of_nat (length (v1alpha1.FirewallProtocolRules ingFirewallConfig)) mod 2 ^ 32)
              (BpfRulesValSt_zero maxRules)) i rule Hi Hrej) as [err ->].
  - rewrite initial_rules_length. lia.
  - eauto.
Qed.

Lemma invalid_rule_rejects_call_witness :
  exists err,
    makeIngressFwRulesMap sampleMaxRules sampleParseCIDR
      (policy [tcpRule 1 "80-443"; tcpRule 2 "http"]) false freshState = (ReturnErr err, freshState).
Proof.
  apply (invalid_rule_rejects_call sampleMaxRules sampleParseCIDR
           (policy [tcpRule 1 "80-443"; tcpRule 2 "http"]) false freshState
           1%nat (tcpRule 2 "http")).
  - reflexivity.
  - vm_compute. reflexivity.
  - unfold sampleMaxRules. lia.
Defined.

(** The claim as stated fails past the capacity: with 100 valid rules in
    front of it, a rule with an unknown protocol tag is never looked at.
    The call does not return an error, it panics on the array index (as
    it does at every capacity, [parseRules_overflow]). *)
Lemma invalid_rule_past_capacity :
  (repeat (tcpRule 1 "80") 100 ++ [greRule])%list !! 100%nat = Some greRule /\
  rejected greRule = true /\
  makeIngressFwRulesMap sampleMaxRules sampleParseCIDR
    (policy (repeat (tcpRule 1 "80") 100 ++ [greRule])) false freshState =
  (Panic (IndexOutOfRange 100 100), freshState).
Proof. vm_compute. repeat split; reflexivity. Qed.

(** Past the capacity, with nothing rejected before it, the loop panics on
    the array index; this holds at every capacity. *)
Lemma parseRules_overflow rs rules :
  (length (Rules rules) < length rs)%nat ->
  existsb rejected (firstn (length (Rules rules)) rs) = false ->
  parseRules rs 0 rules =
  inr (Panic (IndexOutOfRange (length (Rules rules)) (length (Rules rules)))).
Proof.
  intros Hlen E. set (n := length (Rules rules)) in *.
  assert (Hok : forallb (fun r => negb (rejected r)) (firstn n rs) = true).
  { apply forallb_forall. intros r Hr. apply negb_true_iff.
    destruct (rejected r) eqn:Er; [|reflexivity].
    assert (existsb rejected (firstn n rs) = true) by (apply existsb_exists; eauto).
    congruence. }
  replace (parseRules rs 0 rules) with (parseRules (firstn n rs ++ skipn n rs) 0 rules)
    by (rewrite firstn_skipn; reflexivity).
  destruct (parseRules_accepts (firstn n rs) (skipn n rs) 0 rules Hok) as (rules' & -> & Hl').
  - rewrite length_firstn. unfold n. lia.
  - rewrite length_firstn, Nat.min_l by lia. simpl.
    destruct (skipn n rs) as [|r post] eqn:Es.
    + apply (f_equal (@length _)) in Es. rewrite length_skipn in Es. simpl in Es. lia.
    + simpl. rewrite Hl'. fold n. rewrite Nat.ltb_irrefl. reflexivity.
Qed.

(** C4, as amended: a rule list longer than the capacity is not truncated
    and the call never succeeds.  If one of the first [maxRules] rules is
    rejected the call returns an error; otherwise it panics on index
    [maxRules] of the array.  Either way the state is left as it was: the
    table receives no value, truncated or not. *)
Theorem rules_past_capacity
  (maxRules : nat) (ParseCIDR : string -> (list byte * list byte) + liberror)
  (ingFirewallConfig : v1alpha1.IngressNodeFirewallRules) (isDelete : bool) (st : State) :
  (maxRules < length (v1alpha1.FirewallProtocolRules ingFirewallConfig))%nat ->
  exists out,
    makeIngressFwRulesMap maxRules ParseCIDR ingFirewallConfig isDelete st = (out, st) /\
    if existsb rejected (firstn maxRules (v1alpha1.FirewallProtocolRules ingFirewallConfig))
    then exists err, out = ReturnErr err
    else out = Panic (IndexOutOfRange maxRules maxRules).
Proof.
  intros Hlen. unfold makeIngressFwRulesMap.
  set (rs := v1alpha1.FirewallProtocolRules ingFirewallConfig) in *.
  set (rules := setNumRules (Z.of_nat (length rs) mod 2 ^ 32) (BpfRulesValSt_zero maxRules)).
  assert (Hl : length (Rules rules) = maxRules) by apply initial_rules_length.
  destruct (existsb rejected (firstn maxRules rs)) eqn:E.
  - apply existsb_exists in E as (rule & Hin & Hrej).
    apply list_elem_of_In, list_elem_of_lookup_1 in Hin as [k Hk].
    apply lookup_take_Some in Hk as [Hk Hk'].
    destruct (parseRules_rejects rs 0 rules k rule) as [err ->]; try assumption.
    + lia.
    + exists (ReturnErr err). eauto.
  - rewrite <- Hl in E, Hlen. rewrite (parseRules_overflow rs rules Hlen E), Hl. eauto.
Qed.

Lemma rules_past_capacity_witness :
  exists out,
    makeIngressFwRulesMap sampleMaxRules sampleParseCIDR
      (policy (repeat (tcpRule 1 "80") 101)) false freshState = (out, freshState) /\
    out = Panic (IndexOutOfRange 100 100).
Proof.
  apply (rules_past_capacity sampleMaxRules sampleParseCIDR
           (policy (repeat (tcpRule 1 "80") 101)) false freshState).
  vm_compute. lia.
Defined.

(** The claim as stated fails: 101 valid rules against a capacity of 100
    are not truncated to 100.  The call panics and the table stays empty. *)
Lemma no_silent_truncation :
  length (v1alpha1.FirewallProtocolRules (policy (repeat (tcpRule 1 "80") 101))) = 101%nat /\
  fst (makeIngressFwRulesMap sampleMaxRules sampleParseCIDR
         (policy (repeat (tcpRule 1 "80") 101)) false freshState) =
    Panic (IndexOutOfRange 100 100) /\
  table (kernel (snd (makeIngressFwRulesMap sampleMaxRules sampleParseCIDR
                        (policy (repeat (tcpRule 1 "80") 101)) false freshState))) = ∅.
Proof. vm_compute. repeat split; reflexivity. Qed.

(** ** The attachment manager *)

Example IngressNodeFwAttach_eth0 :
  IngressNodeFwAttach sampleAttachError samplePinError ["eth0"] false freshState =
  (ReturnNil, attachedState).
Proof. vm_compute. reflexivity. Qed.

Lemma setXdpLinks_id k : setXdpLinks (xdp_links k) k = k.
Proof. destruct k; reflexivity. Qed.

Lemma xdp_links_Unpin l k j :
  xdp_links (Unpin l k) !! j =
  if decide (l = j)
  then (fun x => {| ifindex := ifindex x; pinnedPath := None; fd_open := fd_open x |})
         <$> xdp_links k !! j
  else xdp_links k !! j.
Proof.
  unfold Unpin. destruct (xdp_links k !! l) as [x|] eqn:E.
  - destruct (pinnedPath x) as [p|] eqn:Ep; simpl.
    + destruct (decide (l = j)) as [->|Hne].
      * rewrite list_lookup_insert_eq by (eapply lookup_lt_Some; eauto). rewrite E. reflexivity.
      * rewrite list_lookup_insert_ne by assumption. reflexivity.
    + destruct (decide (l = j)) as [->|Hne]; [|reflexivity].
      rewrite E. simpl. destruct x; simpl in *; subst; reflexivity.
  - destruct (decide (l = j)) as [->|Hne]; [|reflexivity]. rewrite E. reflexivity.
Qed.

Lemma xdp_links_Close l k j :
  xdp_links (Close l k) !! j =
  if decide (l = j)
  then (fun x => {| ifindex := ifindex x; pinnedPath := pinnedPath x; fd_open := false |})
         <$> xdp_links k !! j
  else xdp_links k !! j.
Proof.
  unfold Close. destruct (xdp_links k !! l) as [x|] eqn:E; simpl.
  - destruct (decide (l = j)) as [->|Hne].
    + rewrite list_lookup_insert_eq by (eapply lookup_lt_Some; eauto). rewrite E. reflexivity.
    + rewrite list_lookup_insert_ne by assumption. reflexivity.
  - destruct (decide (l = j)) as [->|Hne]; [|reflexivity]. rewrite E. reflexivity.
Qed.

(** What [release] does to each link object. *)
Lemma xdp_links_release k l j :
  xdp_links (release k l) !! j =
  if decide (l = j)
  then (fun x => {| ifindex := ifindex x; pinnedPath := None; fd_open := false |})
         <$> xdp_links k !! j
  else xdp_links k !! j.
Proof.
  unfold release. rewrite xdp_links_Close, xdp_links_Unpin.
  destruct (decide (l = j)); [|reflexivity].
  destruct (xdp_links k !! j); reflexivity.
Qed.

Lemma release_released k l : released (release k l) l.
Proof.
  intros x. rewrite xdp_links_release. destruct (decide (l = l)); [|contradiction].
  destruct (xdp_links k !! l); simpl; intros H; inversion H; auto.
Qed.

Lemma release_keeps_released k l l' : released k l -> released (release k l') l.
Proof.
  intros Hr x. rewrite xdp_links_release. destruct (decide (l' = l)) as [->|Hne]; [|apply Hr].
  destruct (xdp_links k !! l); simpl; intros H; inversion H; auto.
Qed.

Lemma fold_release_keeps_released ls : forall k l,
  released k l -> released (fold_left release ls k) l.
Proof.
  induction ls as [|l' ls IH]; intros k l Hr; simpl; [exact Hr|].
  apply IH, release_keeps_released, Hr.
Qed.

(** After the loop of [cleanup] every registered link is released. *)
Lemma fold_release_released ls : forall k l,
  l ∈ ls -> released (fold_left release ls k) l.
Proof.
  induction ls as [|l' ls IH]; intros k l Hin; [inversion Hin|].
  simpl. apply elem_of_cons in Hin as [->|Hin].
  - apply fold_release_keeps_released, release_released.
  - apply IH, Hin.
Qed.

(** Releasing a released link changes nothing. *)
Lemma release_id k l : released k l -> release k l = k.
Proof.
  intros Hr. unfold release, Unpin, Close.
  destruct (xdp_links k !! l) as [x|] eqn:E; [|rewrite E; reflexivity].
  destruct (Hr x E) as [Hp Hf]. rewrite Hp, E.
  replace {| ifindex := ifindex x; pinnedPath := pinnedPath x; fd_open := false |} with x
    by (destruct x; simpl in *; subst; reflexivity).
  rewrite list_insert_id by exact E. apply setXdpLinks_id.
Qed.

Lemma fold_release_id ls : forall k,
  (forall l, l ∈ ls -> released k l) -> fold_left release ls k = k.
Proof.
  induction ls as [|l ls IH]; intros k Hr; simpl; [reflexivity|].
  rewrite release_id by (apply Hr; left).
  apply IH. intros l' Hl'. apply Hr. right. exact Hl'.
Qed.

Lemma release_objs_Close k l : release (objs_Close k) l = objs_Close (release k l).
Proof.
  destruct k as [ifs t o xl fs]. unfold release, Close, Unpin, objs_Close, setObjsOpen. simpl.
  destruct (xl !! l) as [x|] eqn:E; simpl; [|rewrite E; reflexivity].
  destruct (pinnedPath x); simpl.
  - destruct (<[l:={| ifindex := ifindex x; pinnedPath := None; fd_open := fd_open x |}]> xl !! l);
      reflexivity.
  - rewrite E. reflexivity.
Qed.

Lemma fold_release_objs_Close ls : forall k,
  fold_left release ls (objs_Close k) = objs_Close (fold_left release ls k).
Proof.
  induction ls as [|l ls IH]; intros k; simpl; [reflexivity|].
  rewrite release_objs_Close. apply IH.
Qed.

(** A second cleanup changes nothing. *)
Lemma cleanup_idempotent st : cleanup (cleanup st) = cleanup st.
Proof.
  unfold cleanup. simpl.
  rewrite fold_release_objs_Close.
  rewrite (fold_release_id (links (infc st)) (fold_left release (links (infc st)) (kernel st))).
  - destruct st as [c k lg]. simpl. unfold setKernel, objs_Close, setObjsOpen. simpl. reflexivity.
  - intros l Hl. apply fold_release_released, Hl.
Qed.

(** [release] touches the link objects and the pins, nothing else. *)
Lemma release_frame k l :
  interfaces (release k l) = interfaces k /\ table (release k l) = table k /\
  objs_open (release k l) = objs_open k /\
  length (xdp_links (release k l)) = length (xdp_links k) /\
  bpffs (release k l) ⊆ bpffs k.
Proof.
  unfold release, Close, Unpin.
  destruct (xdp_links k !! l) as [x|] eqn:E; [|rewrite E; auto].
  destruct (pinnedPath x) as [p|]; simpl.
  - rewrite list_lookup_insert_eq by (eapply lookup_lt_Some; eauto). simpl.
    rewrite !length_insert. repeat split; auto. set_solver.
  - rewrite E. simpl. rewrite length_insert. auto.
Qed.

Lemma fold_release_frame ls : forall k,
  interfaces (fold_left release ls k) = interfaces k /\
  table (fold_left release ls k) = table k /\
  objs_open (fold_left release ls k) = objs_open k /\
  length (xdp_links (fold_left release ls k)) = length (xdp_links k) /\
  bpffs (fold_left release ls k) ⊆ bpffs k.
Proof.
  induction ls as [|l ls IH]; intros k; simpl; [auto|].
  destruct (IH (release k l)) as (H1 & H2 & H3 & H4 & H5).
  destruct (release_frame k l) as (G1 & G2 & G3 & G4 & G5).
  repeat split; try congruence. set_solver.
Qed.

(** The link objects after the loop of [cleanup]. *)
Lemma xdp_links_fold_release ls : forall k j,
  xdp_links (fold_left release ls k) !! j =
  if decide (j ∈ ls)
  then (fun x => {| ifindex := ifindex x; pinnedPath := None; fd_open := false |})
         <$> xdp_links k !! j
  else xdp_links k !! j.
Proof.
  induction ls as [|l ls IH]; intros k j; simpl.
  - destruct (decide (j ∈ [])) as [Hin|]; [inversion Hin|reflexivity].
  - rewrite IH, xdp_links_release.
    destruct (decide (j ∈ ls)) as [Hin|Hnin], (decide (l = j)) as [->|Hne].
    + rewrite decide_True by (left). destruct (xdp_links k !! j); reflexivity.
    + rewrite decide_True by (right; exact Hin). reflexivity.
    + rewrite decide_True by (left). reflexivity.
    + rewrite decide_False; [reflexivity|].
      intros Hin. apply elem_of_cons in Hin as [->|Hin]; contradiction.
Qed.

(** The pins of the registered links are gone after the loop. *)
Lemma bpffs_fold_release ls : forall k l x p,
  l ∈ ls -> xdp_links k !! l = Some x -> pinnedPath x = Some p ->
  p ∉ bpffs (fold_left release ls k).
Proof.
  induction ls as [|l' ls IH]; intros k l x p Hin Hx Hp; [inversion Hin|].
  simpl. destruct (decide (l' = l)) as [->|Hne].
  - destruct (fold_release_frame ls (release k l)) as (_ & _ & _ & _ & Hsub).
    assert (p ∉ bpffs (release k l)); [|set_solver].
    unfold release, Close, Unpin. rewrite Hx, Hp. simpl.
    rewrite list_lookup_insert_eq by (eapply lookup_lt_Some; eauto). simpl. set_solver.
  - apply elem_of_cons in Hin as [->|Hin]; [contradiction|].
    apply (IH (release k l') l x p Hin); [|exact Hp].
    rewrite xdp_links_release. rewrite decide_False by assumption. exact Hx.
Qed.

Lemma cleanup_fullCleanup st : fullCleanup st (kernel (cleanup st)).
Proof.
  unfold fullCleanup, cleanup. simpl. split; [reflexivity|].
  intros l x Hin Hx. split.
  - rewrite xdp_links_fold_release. rewrite decide_True by assumption. rewrite Hx. reflexivity.
  - intros p Hp. eapply bpffs_fold_release; eauto.
Qed.

Lemma cleanup_logPrintf format operands st :
  kernel (cleanup (logPrintf format operands st)) = kernel (cleanup st) /\
  infc (cleanup (logPrintf format operands st)) = infc st.
Proof. split; reflexivity. Qed.

(** C7, as amended: cleanup is idempotent, a second cleanup changes
    nothing.  With an empty registry cleanup releases no attachment and
    leaves registry, links, pins and table alone, but it still closes the
    table and program objects; it changes nothing only when they are closed
    already. *)
Theorem cleanup_empty_registry (st : State) :
  cleanup (cleanup st) = cleanup st /\
  (links (infc st) = [] ->
   cleanup st = setKernel (setObjsOpen false (kernel st)) st /\
   (objs_open (kernel st) = false -> cleanup st = st)).
Proof.
  split; [apply cleanup_idempotent|].
  intros Hl. assert (H : cleanup st = setKernel (setObjsOpen false (kernel st)) st).
  { unfold cleanup. rewrite Hl. reflexivity. }
  split; [exact H|].
  intros Ho. rewrite H. destruct st as [c [ifs t o xl fs] lg]. simpl in *. subst o. reflexivity.
Qed.

Lemma cleanup_empty_registry_witness :
  cleanup (cleanup freshState) = cleanup freshState /\
  cleanup freshState = setKernel (setObjsOpen false (kernel freshState)) freshState.
Proof.
  destruct (cleanup_empty_registry freshState) as [Hidem Hempty].
  destruct (Hempty eq_refl) as [Hclose _].
  split; [exact Hidem|exact Hclose].
Defined.

(** The claim as stated fails: on a fresh controller, whose registry is
    empty, cleanup closes the table and program objects. *)
Lemma cleanup_empty_registry_closes_objects :
  links (infc freshState) = [] /\
  objs_open (kernel freshState) = true /\
  objs_open (kernel (cleanup freshState)) = false.
Proof. repeat split; reflexivity. Qed.

(** ** Detaching *)

Lemma detach_unresolved attach_error pin_error name rest st err :
  InterfaceByName (interfaces (kernel st)) name = inr err ->
  IngressNodeFwAttach attach_error pin_error (name :: rest) true st =
  (ReturnErr (Errorf "lookup network iface %q: %s" [OStr name; OErr err]), st).
Proof. intros H. simpl. rewrite H. reflexivity. Qed.

Lemma detach_resolved attach_error pin_error name rest st iface :
  InterfaceByName (interfaces (kernel st)) name = inl iface ->
  IngressNodeFwAttach attach_error pin_error (name :: rest) true st =
  IngressNodeFwAttach attach_error pin_error rest true
    (cleanup (logPrintf "Unattaching IngressNode Firewall program from iface %q (index %d)"
                [OStr (Name iface); OInt (Index iface)] st)).
Proof. intros H. simpl. rewrite H. reflexivity. Qed.

(** After one cleanup, whatever the rest of the names does leaves the
    kernel as the cleanup left it. *)
Lemma detach_after_cleanup attach_error pin_error names : forall st,
  let st' := snd (IngressNodeFwAttach attach_error pin_error names true (cleanup st)) in
  infc st' = infc st /\ kernel st' = kernel (cleanup st).
Proof.
  induction names as [|name names IH]; intros st; [split; reflexivity|].
  cbv zeta.
  destruct (InterfaceByName (interfaces (kernel (cleanup st))) name) as [iface|err] eqn:E.
  - rewrite (detach_resolved _ _ _ _ _ _ E).
    set (st1 := logPrintf _ _ (cleanup st)).
    assert (H1 : cleanup st1 = cleanup (logPrintf
                   "Unattaching IngressNode Firewall program from iface %q (index %d)"
                   [OStr (Name iface); OInt (Index iface)] (cleanup st)))
      by reflexivity.
    destruct (IH st1) as [Hi Hk]. cbv zeta in Hi, Hk. rewrite Hi, Hk. split; [reflexivity|].
    unfold st1. rewrite (proj1 (cleanup_logPrintf _ _ _)), cleanup_idempotent. reflexivity.
  - rewrite (detach_unresolved _ _ _ _ _ _ E). split; reflexivity.
Qed.

(** Where a detach call leaves the controller and the kernel. *)
Lemma detach_state attach_error pin_error ifacesName st :
  infc (snd (IngressNodeFwAttach attach_error pin_error ifacesName true st)) = infc st /\
  kernel (snd (IngressNodeFwAttach attach_error pin_error ifacesName true st)) =
    match ifacesName with
    | [] => kernel st
    | ifaceName :: _ =>
        if resolves (interfaces (kernel st)) ifaceName then kernel (cleanup st) else kernel st
    end.
Proof.
  destruct ifacesName as [|name rest]; [split; reflexivity|]. unfold resolves.
  destruct (InterfaceByName (interfaces (kernel st)) name) as [iface|err] eqn:E.
  - rewrite (detach_resolved _ _ _ _ _ _ E).
    apply (detach_after_cleanup attach_error pin_error rest (logPrintf _ _ st)).
  - rewrite (detach_unresolved _ _ _ _ _ _ E). split; reflexivity.
Qed.

(** C6, as amended: a detach call is all-or-nothing.  When the list is
    empty or its first name does not resolve, nothing is released.  In every
    other call the kernel is left as one full cleanup leaves it, whichever
    names were given: the table and program objects closed, every link of
    the registry closed and unpinned.  The registry itself keeps its
    handles. *)
Theorem detach_all_or_nothing
  (attach_error : Kernel -> Z -> option liberror)
  (pin_error : Kernel -> nat -> string -> option liberror)
  (ifacesName : list string) (st : State) :
  let st' := snd (IngressNodeFwAttach attach_error pin_error ifacesName true st) in
  infc st' = infc st /\
  kernel st' =
    match ifacesName with
    | [] => kernel st
    | ifaceName :: _ =>
        if resolves (interfaces (kernel st)) ifaceName then kernel (cleanup st) else kernel st
    end /\
  fullCleanup st (kernel (cleanup st)).
Proof.
  cbv zeta. destruct (detach_state attach_error pin_error ifacesName st) as [Hi Hk].
  split; [exact Hi|]. split; [exact Hk|apply cleanup_fullCleanup].
Qed.

(** The claim as stated fails: a detach call with no names, or whose first
    name does not resolve, invokes no cleanup.  The link on eth0 stays open
    and pinned and the objects stay open. *)
Lemma detach_without_cleanup :
  IngressNodeFwAttach sampleAttachError samplePinError [] true attachedState =
    (ReturnNil, attachedState) /\
  IngressNodeFwAttach sampleAttachError samplePinError ["nonexistent0"; "eth0"] true attachedState =
    (ReturnErr (Errorf "lookup network iface %q: %s" [OStr "nonexistent0"; OErr ErrNoSuchInterface]),
     attachedState) /\
  links (infc attachedState) = [0%nat] /\
  xdp_links (kernel attachedState) !! 0%nat =
    Some {| ifindex := 5; pinnedPath := Some (pinDir ++ "/eth0_link"); fd_open := true |} /\
  objs_open (kernel attachedState) = true.
Proof. repeat split; reflexivity. Qed.

Example detach_eth0 :
  let st' := snd (IngressNodeFwAttach sampleAttachError samplePinError ["eth0"] true attachedState) in
  links (infc st') = [0%nat] /\
  xdp_links (kernel st') = [{| ifindex := 5; pinnedPath := None; fd_open := false |}] /\
  bpffs (kernel st') = ∅ /\
  objs_open (kernel st') = false.
Proof. vm_compute. repeat split; reflexivity. Qed.














(** ** Attaching *)

Lemma setKernel_id st : setKernel (kernel st) st = st.
Proof. destruct st; reflexivity. Qed.

(** One turn of the attach loop, with the link calls spelled out: a link
    that is created takes the next handle, and is pinned and registered. *)
Lemma attach_step ae pe name names st :
  IngressNodeFwAttach ae pe (name :: names) false st =
  match InterfaceByName (interfaces (kernel st)) name with
  | inr err => (ReturnErr (Errorf "lookup network iface %q: %s" [OStr name; OErr err]), st)
  | inl iface =>
      match ae (kernel st) (Index iface) with
      | Some err => (ReturnErr (Errorf "could not attach XDP program: %s" [OErr err]), st)
      | None =>
          let l := length (xdp_links (kernel st)) in
          let k1 := setXdpLinks
                      (xdp_links (kernel st) ++
                       [{| ifindex := Index iface; pinnedPath := None; fd_open := true |}])
                      (kernel st) in
          let lPinDir := path_Join (pinPath (infc st)) (name ++ "_link") in
          match pe k1 l lPinDir with
          | Some err =>
              (ReturnErr (Errorf "failed to pin link to pinDir %s: %s" [OStr lPinDir; OErr err]),
               setKernel k1 st)
          | None =>
              let k2 := setBpffs ({[lPinDir]} ∪ bpffs k1)
                          (setXdpLinks
                             (xdp_links (kernel st) ++
                              [{| ifindex := Index iface; pinnedPath := Some lPinDir;
                                  fd_open := true |}]) k1) in
              IngressNodeFwAttach ae pe names false
                (logPrintf "Attached IngressNode Firewall program to iface %q (index %d)"
                   [OStr (Name iface); OInt (Index iface)]
                   (setLinks (links (infc st) ++ [l]) (setKernel k2 st)))
          end
      end
  end.
Proof.
  simpl. destruct (InterfaceByName (interfaces (kernel st)) name) as [iface|err]; [|reflexivity].
  unfold AttachXDP. destruct (ae (kernel st) (Index iface)) as [err|];
    [rewrite setKernel_id; reflexivity|].
  simpl. unfold Pin.
  destruct (pe _ (length (xdp_links (kernel st))) _) as [err|]; [reflexivity|].
  simpl.
  rewrite <- (Nat.add_0_r (length (xdp_links (kernel st)))) at 2.
  rewrite alter_app_r. reflexivity.
Qed.

(** The names after a prefix are processed from the state the prefix left. *)
Lemma attach_app ae pe pre : forall post st,
  IngressNodeFwAttach ae pe (pre ++ post) false st =
  match IngressNodeFwAttach ae pe pre false st with
  | (ReturnNil, st') => IngressNodeFwAttach ae pe post false st'
  | r => r
  end.
Proof.
  induction pre as [|name pre IH]; intros post st; [reflexivity|].
  change ((name :: pre) ++ post)%list with (name :: (pre ++ post))%list.
  rewrite !attach_step.
  destruct (InterfaceByName (interfaces (kernel st)) name) as [iface|err]; [|reflexivity].
  destruct (ae (kernel st) (Index iface)) as [err|]; [reflexivity|]. cbv zeta.
  destruct (pe _ _ _) as [err|]; [reflexivity|]. apply IH.
Qed.

(** Whatever the outcome, an attach call keeps what it found: the pin
    directory, the interfaces, every link object and every pin. *)
Lemma attach_frame ae pe names : forall st,
  pinPath (infc (snd (IngressNodeFwAttach ae pe names false st))) = pinPath (infc st) /\
  interfaces (kernel (snd (IngressNodeFwAttach ae pe names false st))) = interfaces (kernel st) /\
  (forall j x, xdp_links (kernel st) !! j = Some x ->
     xdp_links (kernel (snd (IngressNodeFwAttach ae pe names false st))) !! j = Some x) /\
  bpffs (kernel st) ⊆ bpffs (kernel (snd (IngressNodeFwAttach ae pe names false st))).
Proof.
  induction names as [|name names IH]; intros st; [simpl; auto|].
  rewrite attach_step.
  destruct (InterfaceByName (interfaces (kernel st)) name) as [iface|err]; [|simpl; auto].
  destruct (ae (kernel st) (Index iface)) as [err|]; [simpl; auto|]. cbv zeta.
  destruct (pe _ _ _) as [err|].
  - simpl. repeat split; auto. intros j x Hj. apply lookup_app_l_Some. exact Hj.
  - match goal with |- context [IngressNodeFwAttach ae pe names false ?st1] =>
      destruct (IH st1) as (Hp & Hi & Hx & Hb) end.
    simpl in Hp, Hi, Hx, Hb. split; [exact Hp|]. split; [exact Hi|]. split.
    + intros j x Hj. apply Hx. apply lookup_app_l_Some. exact Hj.
    + set_solver.
Qed.

(** Whatever the outcome, the names an attach call got through are attached
    and registered when it returns; it got through all of them when it
    returns nil.  It never panics. *)
Lemma attach_progress ae pe names : forall st,
  fst (IngressNodeFwAttach ae pe names false st) <> ReturnNil ->
  exists err, fst (IngressNodeFwAttach ae pe names false st) = ReturnErr err.
Proof.
  induction names as [|name names IH]; intros st; [simpl; congruence|].
  rewrite attach_step.
  destruct (InterfaceByName (interfaces (kernel st)) name) as [iface|err]; [|simpl; eauto].
  destruct (ae (kernel st) (Index iface)) as [err|]; [simpl; eauto|]. cbv zeta.
  destruct (pe _ _ _) as [err|]; [simpl; eauto|]. apply IH.
Qed.

Lemma attach_registered ae pe names : forall st,
  exists n, (n <= length names)%nat /\
    attachedAndRegistered st (snd (IngressNodeFwAttach ae pe names false st)) (take n names) /\
    (fst (IngressNodeFwAttach ae pe names false st) = ReturnNil -> n = length names).
Proof.
  induction names as [|name names IH]; intros st.
  - exists 0%nat. split; [simpl; lia|]. split; [|reflexivity].
    exists []. simpl. rewrite app_nil_r. repeat split. intros i name l Hn. discriminate.
  - rewrite attach_step.
    assert (Hnone : forall st', links (infc st') = links (infc st) ->
              attachedAndRegistered st st' (take 0 (name :: names))).
    { intros st' Hl. exists []. rewrite Hl, app_nil_r. repeat split.
      intros i name' l Hn. discriminate. }
    destruct (InterfaceByName (interfaces (kernel st)) name) as [iface|err] eqn:E;
      [|exists 0%nat; simpl; repeat split; [lia|apply Hnone; reflexivity|discriminate]].
    destruct (ae (kernel st) (Index iface)) as [err|];
      [exists 0%nat; simpl; repeat split; [lia|apply Hnone; reflexivity|discriminate]|].
    cbv zeta.
    destruct (pe _ _ _) as [err|];
      [exists 0%nat; simpl; repeat split; [lia|apply Hnone; reflexivity|discriminate]|].
    match goal with |- context [IngressNodeFwAttach ae pe names false ?st1] =>
      set (s1 := st1) end.
    destruct (IH s1) as (n & Hn & (handles & Hl & Hlen & Hnew) & Hall).
    destruct (attach_frame ae pe names s1) as (_ & _ & Hx & Hb).
    exists (S n). split; [simpl; lia|]. split; [|intros H; simpl; f_equal; auto].
    exists (length (xdp_links (kernel st)) :: handles). split; [|split].
    + rewrite Hl. unfold s1. simpl. rewrite <- app_assoc. reflexivity.
    + simpl. rewrite Hlen. reflexivity.
    + intros [|i] name' l Hn' Hh; simpl in Hn', Hh.
      * inversion Hn'; inversion Hh; subst. exists iface. split; [exact E|]. split.
        -- apply Hx. unfold s1. simpl. apply list_lookup_middle. reflexivity.
        -- apply Hb. unfold s1. simpl. set_solver.
      * apply (Hnew i name' l Hn' Hh).
Qed.

(** C5: when a name of the list does not resolve, the attach call returns
    an error and stops there: the names after it play no part, and the state
    is the one the names before it left.  Nothing is rolled back: the
    interfaces attached earlier in the call are still attached, pinned and
    registered.  When all the names before it were attached, the error is
    the lookup error of that name and all of them are registered. *)
Theorem attach_unknown_interface
  (attach_error : Kernel -> Z -> option liberror)
  (pin_error : Kernel -> nat -> string -> option liberror)
  (pre : list string) (bad : string) (post : list string) (st : State) (err : liberror) :
  InterfaceByName (interfaces (kernel st)) bad = inr err ->
  let before := IngressNodeFwAttach attach_error pin_error pre false st in
  let r := IngressNodeFwAttach attach_error pin_error (pre ++ bad :: post) false st in
  (exists e, fst r = ReturnErr e) /\
  snd r = snd before /\
  exists n, (n <= length pre)%nat /\
    attachedAndRegistered st (snd r) (take n pre) /\
    (fst before = ReturnNil ->
     n = length pre /\
     fst r = ReturnErr (Errorf "lookup network iface %q: %s" [OStr bad; OErr err])).
Proof.
  intros Hbad. cbv zeta. rewrite attach_app.
  destruct (attach_registered attach_error pin_error pre st) as (n & Hn & Hreg & Hall).
  destruct (attach_frame attach_error pin_error pre st) as (_ & Hi & _).
  pose proof (attach_progress attach_error pin_error pre st) as Hprog.
  destruct (IngressNodeFwAttach attach_error pin_error pre false st) as [out st'] eqn:Epre.
  simpl in Hreg, Hall, Hi, Hprog.
  destruct out as [|e|p].
  - rewrite attach_step, Hi, Hbad. simpl. split; [eauto|]. split; [reflexivity|].
    exists n. split; [exact Hn|]. split; [exact Hreg|]. intros _. split; [auto|reflexivity].
  - simpl. split; [eauto|]. split; [reflexivity|].
    exists n. split; [exact Hn|]. split; [exact Hreg|]. discriminate.
  - destruct Hprog as [e He]; discriminate.
Qed.

(** The scenario of the spec, [Attach(["nonexistent0"])] on a fresh
    controller: an error, and the registry still empty; and the same name
    after eth0: an error, with eth0 attached and registered. *)
Lemma attach_unknown_interface_witness :
  (IngressNodeFwAttach sampleAttachError samplePinError ["nonexistent0"] false freshState =
     (ReturnErr (Errorf "lookup network iface %q: %s"
                   [OStr "nonexistent0"; OErr ErrNoSuchInterface]), freshState) /\
   length (links (infc freshState)) = 0%nat) /\
  (IngressNodeFwAttach sampleAttachError samplePinError ["eth0"; "nonexistent0"; "eth0"] false
     freshState =
     (ReturnErr (Errorf "lookup network iface %q: %s"
                   [OStr "nonexistent0"; OErr ErrNoSuchInterface]), attachedState) /\
   attachedAndRegistered freshState attachedState ["eth0"]).
Proof.
  split.
  - destruct (attach_unknown_interface sampleAttachError samplePinError
                [] "nonexistent0" [] freshState ErrNoSuchInterface eq_refl)
      as (_ & Hs & n & _ & _ & Hall).
    destruct (Hall eq_refl) as [_ He]. split; [|reflexivity].
    apply injective_projections; [exact He|exact Hs].
  - pose proof (attach_unknown_interface sampleAttachError samplePinError
                  ["eth0"] "nonexistent0" ["eth0"] freshState ErrNoSuchInterface eq_refl)
      as H.
    cbv zeta in H. destruct H as (_ & Hs & n & _ & Hreg & Hall).
    assert (Hb : fst (IngressNodeFwAttach sampleAttachError samplePinError ["eth0"] false
                        freshState) = ReturnNil) by (vm_compute; reflexivity).
    destruct (Hall Hb) as [Hn He].
    assert (Hsnd : snd (IngressNodeFwAttach sampleAttachError samplePinError
                          (["eth0"] ++ "nonexistent0" :: ["eth0"]) false freshState)
                   = attachedState)
      by (etransitivity; [exact Hs|vm_compute; reflexivity]).
    split.
    + apply injective_projections; [exact He|exact Hsnd].
    + rewrite Hsnd, Hn in Hreg. exact Hreg.
Defined.

Lemma detach_all_or_nothing_witness :
  let st' := snd (IngressNodeFwAttach sampleAttachError samplePinError ["eth0"] true attachedState) in
  infc st' = infc attachedState /\
  kernel st' = kernel (cleanup attachedState) /\
  fullCleanup attachedState (kernel (cleanup attachedState)).
Proof.
  exact (detach_all_or_nothing sampleAttachError samplePinError ["eth0"] attachedState).
Defined.

(* ================================================================== *)
(** * Further properties of the package *)

(** ** Records that do not decode *)

Lemma ReadFull_short src n :
  (length src < n)%nat ->
  ReadFull src n = (src, Some (match src with [] => EOF | _ => ErrUnexpectedEOF end)).
Proof.
  intros H. unfold ReadFull. destruct (Nat.leb_spec n (length src)); [lia|].
  destruct src; reflexivity.
Qed.

Lemma Uint16_slice_6_8 raw :
  (8 <= length raw)%nat -> Uint16 (slice (firstn 8 raw) 6 8) = rawPktLength raw.
Proof.
  intros H.
  destruct raw as [|b0 [|b1 [|b2 [|b3 [|b4 [|b5 [|b6 [|b7 tl]]]]]]]]; simpl in H; try lia.
  change (slice (firstn 8 (b0 :: b1 :: b2 :: b3 :: b4 :: b5 :: b6 :: b7 :: tl)) 6 8)
    with [b6; b7].
  rewrite Uint16_pair. reflexivity.
Qed.

Lemma rawPktLength_range raw : 0 <= rawPktLength raw < 65536.
Proof.
  unfold rawPktLength, idx.
  pose proof (byteZ_range (nth 6 raw x00)). pose proof (byteZ_range (nth 7 raw x00)). lia.
Qed.

(** X1: how a raw sample fails to decode.  A sample of fewer than eight
    bytes is a header error, [io.EOF] when it is empty and
    [io.ErrUnexpectedEOF] otherwise.  A sample with its header but fewer
    bytes after it than the packet length says is a packet error, [io.EOF]
    when nothing follows the header.  Every other sample decodes; a packet
    length of zero needs no byte after the header. *)
Theorem readEvent_outcomes (RawSample : list byte) :
  match readEvent RawSample with
  | HeaderErr err =>
      (length RawSample < 8)%nat /\
      err = match RawSample with [] => EOF | _ => ErrUnexpectedEOF end
  | PacketErr err =>
      (8 <= length RawSample)%nat /\
      Z.of_nat (length RawSample - 8) < rawPktLength RawSample /\
      err = if (length RawSample =? 8)%nat then EOF else ErrUnexpectedEOF
  | Event eventHdr packet =>
      (8 <= length RawSample)%nat /\
      BpfEventHdrSt.PktLength eventHdr = rawPktLength RawSample /\
      rawPktLength RawSample <= Z.of_nat (length RawSample - 8)
  end.
Proof.
  unfold readEvent, eventHdrSize.
  destruct (Nat.lt_ge_cases (length RawSample) 8) as [Hs|Hl].
  - rewrite (ReadFull_short _ _ Hs). auto.
  - assert (E : ReadFull RawSample 8 = (firstn 8 RawSample, None))
      by (apply ReadFull_ok; auto).
    rewrite E. cbn [BpfEventHdrSt.PktLength]. rewrite (Uint16_slice_6_8 _ Hl).
    pose proof (rawPktLength_range RawSample) as Hr.
    assert (Hlen : length (skipn 8 RawSample) = (length RawSample - 8)%nat)
      by apply length_skipn.
    destruct (Nat.lt_ge_cases (length (skipn 8 RawSample)) (Z.to_nat (rawPktLength RawSample)))
      as [Hp|Hp].
    + rewrite (ReadFull_short _ _ Hp). split; [exact Hl|]. split; [lia|].
      destruct (skipn 8 RawSample) eqn:Es; simpl in Hlen.
      * destruct (Nat.eqb_spec (length RawSample) 8); [reflexivity|lia].
      * destruct (Nat.eqb_spec (length RawSample) 8); [lia|reflexivity].
    + assert (E2 : ReadFull (skipn 8 RawSample) (Z.to_nat (rawPktLength RawSample)) =
                   (firstn (Z.to_nat (rawPktLength RawSample)) (skipn 8 RawSample), None))
        by (apply ReadFull_ok; auto).
      rewrite E2. split; [exact Hl|]. split; [reflexivity|lia].
Qed.

(** ** What one record adds to the sinks *)

Lemma PacketLayer_type decoded t l :
  PacketLayer decoded t = Some l -> layerType l = t.
Proof.
  unfold PacketLayer. intros H. apply find_some in H as [_ H].
  destruct (layerType l), t; simpl in H; congruence.
Qed.

Lemma optionally_line o line s :
  optionally o line s =
  {| stdlog := stdlog s;
     audit := audit s ++ match o ≫= line with Some text => [text] | None => [] end |}.
Proof.
  unfold optionally. destruct o as [l|]; simpl.
  - destruct (line l); simpl; [reflexivity|]. rewrite app_nil_r. destruct s; reflexivity.
  - rewrite app_nil_r. destruct s; reflexivity.
Qed.

Lemma omap_omap_lines {A B C} (f : A -> option B) (g : B -> option C) (ts : list A) :
  omap g (omap f ts) =
  flat_map (fun t => match f t ≫= g with Some x => [x] | None => [] end) ts.
Proof.
  induction ts as [|t ts IH]; [reflexivity|].
  change (omap f (t :: ts)) with
    (match f t with Some y => y :: omap f ts | None => omap f ts end).
  cbn [flat_map]. rewrite <- IH.
  destruct (f t) as [b|]; [|reflexivity].
  change (omap g (b :: omap f ts)) with
    (match g b with Some y => y :: omap g (omap f ts) | None => omap g (omap f ts) end).
  simpl. destruct (g b); reflexivity.
Qed.

(** A check for a layer of one type writes the line of that layer. *)
Lemma check_layerLine decoded t (line : Layer -> option string) :
  (forall l, layerType l = t -> line l = layerLine l) ->
  PacketLayer decoded t ≫= line = PacketLayer decoded t ≫= layerLine.
Proof.
  intros H. destruct (PacketLayer decoded t) as [l|] eqn:E; [|reflexivity].
  simpl. apply H. eapply PacketLayer_type; eauto.
Qed.

(** The checks of the reader, one after the other, write the lines of the
    present layers in the order of [printedTypes]. *)
Lemma logLayers_lines decoded s :
  logLayers decoded s =
  {| stdlog := stdlog s; audit := audit s ++ omap layerLine (presentLayers decoded) |}.
Proof.
  unfold logLayers. rewrite !optionally_line. cbn [stdlog audit].
  rewrite (check_layerLine decoded LayerTypeIPv4) by (intros []; simpl; congruence).
  rewrite (check_layerLine decoded LayerTypeIPv6) by (intros []; simpl; congruence).
  rewrite (check_layerLine decoded LayerTypeTCP) by (intros []; simpl; congruence).
  rewrite (check_layerLine decoded LayerTypeUDP) by (intros []; simpl; congruence).
  rewrite (check_layerLine decoded LayerTypeSCTP) by (intros []; simpl; congruence).
  rewrite (check_layerLine decoded LayerTypeICMPv4) by (intros []; simpl; congruence).
  rewrite (check_layerLine decoded LayerTypeICMPv6) by (intros []; simpl; congruence).
  unfold presentLayers. rewrite omap_omap_lines. unfold printedTypes. cbn [flat_map].
  rewrite app_nil_r, <- !app_assoc. reflexivity.
Qed.

Lemma printed_layer_has_line decoded t l :
  PacketLayer decoded t = Some l -> In t printedTypes -> is_Some (layerLine l).
Proof.
  intros E Hin. apply PacketLayer_type in E. subst t.
  destruct l; simpl in *; eauto; exfalso; intuition discriminate.
Qed.

Lemma omap_lines_length decoded ts :
  (forall t, In t ts -> In t printedTypes) ->
  length (omap layerLine (omap (PacketLayer decoded) ts)) =
  length (omap (PacketLayer decoded) ts).
Proof.
  induction ts as [|t ts IH]; intros Hts; [reflexivity|].
  change (omap (PacketLayer decoded) (t :: ts)) with
    (match PacketLayer decoded t with
     | Some y => y :: omap (PacketLayer decoded) ts
     | None => omap (PacketLayer decoded) ts
     end).
  assert (IH' := IH (fun t' Ht' => Hts t' (or_intror Ht'))).
  destruct (PacketLayer decoded t) as [l|] eqn:E; [|exact IH'].
  destruct (printed_layer_has_line decoded t l E (Hts t (or_introl eq_refl))) as [x Hx].
  change (omap layerLine (l :: omap (PacketLayer decoded) ts)) with
    (match layerLine l with
     | Some y => y :: omap layerLine (omap (PacketLayer decoded) ts)
     | None => omap layerLine (omap (PacketLayer decoded) ts)
     end).
  rewrite Hx. simpl. f_equal. exact IH'.
Qed.

Lemma omap_length_le {A B} (f : A -> option B) (ts : list A) :
  (length (omap f ts) <= length ts)%nat.
Proof.
  induction ts as [|t ts IH]; [simpl; lia|].
  change (omap f (t :: ts)) with
    (match f t with Some y => y :: omap f ts | None => omap f ts end).
  destruct (f t); simpl; lia.
Qed.

Lemma presentLayers_lines decoded :
  length (omap layerLine (presentLayers decoded)) = length (presentLayers decoded) /\
  (length (presentLayers decoded) <= 7)%nat.
Proof.
  split.
  - apply omap_lines_length. auto.
  - apply (omap_length_le (PacketLayer decoded) printedTypes).
Qed.

(** X2: the per-layer lines of a packet.  The sequence of checks adds one
    audit line for each of IPv4, IPv6, TCP, UDP, SCTP, ICMPv4 and ICMPv6 that
    the packet has a layer of, in that order, taken from the first layer of
    the type; it adds nothing for an absent type, never more than seven
    lines, and nothing to the log. *)
Theorem logLayers_one_line_per_layer
  (decoded : list Layer) (s : sinks) :
  logLayers decoded s =
    {| stdlog := stdlog s; audit := audit s ++ omap layerLine (presentLayers decoded) |} /\
  length (omap layerLine (presentLayers decoded)) =
    length (filter (fun t => is_Some (PacketLayer decoded t)) printedTypes) /\
  (length (omap layerLine (presentLayers decoded)) <= 7)%nat.
Proof.
  split; [apply logLayers_lines|].
  destruct (presentLayers_lines decoded) as [Hl H7]. rewrite Hl. split; [|exact H7].
  unfold presentLayers. generalize printedTypes. intros ts.
  induction ts as [|t ts IH]; [reflexivity|].
  change (omap (PacketLayer decoded) (t :: ts)) with
    (match PacketLayer decoded t with
     | Some y => y :: omap (PacketLayer decoded) ts
     | None => omap (PacketLayer decoded) ts
     end).
  rewrite filter_cons. destruct (PacketLayer decoded t) as [l|] eqn:E.
  - rewrite decide_True by eauto. simpl. f_equal. exact IH.
  - rewrite decide_False by (intros [x Hx]; discriminate). exact IH.
Qed.

(** What [handleRecord] adds: the new log lines and the new audit lines. *)
Lemma handleRecord_adds NewPacket ifaces record s :
  exists newlog newaudit,
    handleRecord NewPacket ifaces record s =
      {| stdlog := stdlog s ++ newlog; audit := audit s ++ newaudit |} /\
    ((length newlog = 1%nat /\ newaudit = []) \/
     (newlog = [] /\ (1 <= length newaudit <= 8)%nat)).
Proof.
  unfold handleRecord.
  destruct (negb (LostSamples record =? 0)).
  { eexists [_], []. rewrite app_nil_r. split; [reflexivity|left; auto]. }
  destruct (readEvent (RawSample record)) as [e|e|hdr packet].
  { eexists [_], []. rewrite app_nil_r. split; [reflexivity|left; auto]. }
  { eexists [_], []. rewrite app_nil_r. split; [reflexivity|left; auto]. }
  destruct (InterfaceByIndex ifaces (BpfEventHdrSt.IfId hdr)) as [iface|e].
  2:{ eexists [_], []. rewrite app_nil_r. split; [reflexivity|left; auto]. }
  rewrite logLayers_lines. cbn [stdlog audit eventsLogger_Info].
  eexists [], (_ :: omap layerLine (presentLayers (NewPacket packet))).
  rewrite app_nil_r, <- app_assoc. split; [reflexivity|]. right. split; [reflexivity|].
  destruct (presentLayers_lines (NewPacket packet)) as [Hl H7]. simpl. lia.
Qed.

(** X3: what one record does to the sinks.  Whatever the record, the lines
    written before stay, in place, and the record adds either exactly one
    log line and no audit line (lost samples, a header or packet that does
    not decode, an interface index that does not resolve) or no log line and
    between one and eight audit lines. *)
Theorem handleRecord_one_log_or_audit
  (NewPacket : list byte -> list Layer) (ifaces : list Interface)
  (record : Record_) (s : sinks) :
  exists newlog newaudit,
    handleRecord NewPacket ifaces record s =
      {| stdlog := stdlog s ++ newlog; audit := audit s ++ newaudit |} /\
    ((length newlog = 1%nat /\ newaudit = []) \/
     (newlog = [] /\ (1 <= length newaudit <= 8)%nat)).
Proof. apply handleRecord_adds. Qed.

(** ** The reader loop *)

Lemma readerLoop_app_gen NewPacket ifaces pre : forall post s,
  readerLoop NewPacket ifaces (pre ++ post) s =
  if snd (readerLoop NewPacket ifaces pre s)
  then readerLoop NewPacket ifaces pre s
  else readerLoop NewPacket ifaces post (fst (readerLoop NewPacket ifaces pre s)).
Proof.
  induction pre as [|r pre IH]; intros post s; [reflexivity|].
  destruct r as [record| |err]; simpl; [apply IH|reflexivity|apply IH].
Qed.

Lemma readerLoop_returns NewPacket ifaces reads : forall s,
  snd (readerLoop NewPacket ifaces reads s) = existsb isClosed reads.
Proof.
  induction reads as [|r reads IH]; intros s; [reflexivity|].
  destruct r as [record| |err]; simpl; [apply IH|reflexivity|apply IH].
Qed.

(** X4: the reader loop over a sequence of reads.  The task returns
    exactly when one of the reads reports the closed reader; no record and no
    other read error ends it.  Reads compose: the loop over [pre ++ post] is
    the loop over [post] from the sinks the loop over [pre] left, unless
    [pre] already held the closed reader, in which case nothing of [post] is
    read. *)
Theorem readerLoop_stops_at_close
  (NewPacket : list byte -> list Layer) (ifaces : list Interface)
  (pre post : list readResult) (s : sinks) :
  snd (readerLoop NewPacket ifaces pre s) = existsb isClosed pre /\
  readerLoop NewPacket ifaces (pre ++ post) s =
    if existsb isClosed pre
    then readerLoop NewPacket ifaces pre s
    else readerLoop NewPacket ifaces post (fst (readerLoop NewPacket ifaces pre s)).
Proof.
  split; [apply readerLoop_returns|].
  rewrite readerLoop_app_gen, readerLoop_returns. reflexivity.
Qed.

(** X5: the sinks only grow under the reader loop: the lines written
    before stay, in place, and every read adds at most one log line and at
    most eight audit lines. *)
Theorem readerLoop_grows
  (NewPacket : list byte -> list Layer) (ifaces : list Interface)
  (reads : list readResult) (s : sinks) :
  exists newlog newaudit,
    fst (readerLoop NewPacket ifaces reads s) =
      {| stdlog := stdlog s ++ newlog; audit := audit s ++ newaudit |} /\
    (length newlog <= length reads)%nat /\
    (length newaudit <= 8 * length reads)%nat.
Proof.
  revert s. induction reads as [|r reads IH]; intros s.
  - exists [], []. rewrite !app_nil_r. destruct s; simpl. auto.
  - destruct r as [record| |err].
    + cbn [readerLoop].
      destruct (handleRecord_adds NewPacket ifaces record s) as (l1 & a1 & E & Hc).
      rewrite E. destruct (IH {| stdlog := stdlog s ++ l1; audit := audit s ++ a1 |})
        as (l2 & a2 & E2 & Hl & Ha).
      exists (l1 ++ l2)%list, (a1 ++ a2)%list. rewrite E2. cbn [stdlog audit].
      rewrite !app_assoc. split; [reflexivity|]. rewrite !length_app. simpl length.
      destruct Hc as [[H1 ->]|[-> H1]]; simpl; lia.
    + exists [], []. rewrite !app_nil_r. destruct s; simpl. split; [reflexivity|lia].
    + cbn [readerLoop]. unfold log_Printf at 1.
      match goal with |- context [readerLoop _ _ reads ?s1] =>
        destruct (IH s1) as (l2 & a2 & E2 & Hl & Ha) end.
      cbn [stdlog audit] in E2.
      eexists (_ :: l2), a2. rewrite E2. rewrite <- app_assoc. split; [reflexivity|].
      simpl length. lia.
Qed.

(** ** Action names and addresses *)

Lemma append_inj_l s : forall x y, (s ++ x)%string = (s ++ y)%string -> x = y.
Proof.
  induction s as [|c s IH]; intros x y H; simpl in H; [exact H|].
  inversion H. auto.
Qed.

Lemma itoa_inj a b : 0 <= a -> 0 <= b -> itoa a = itoa b -> a = b.
Proof.
  intros Ha Hb H. unfold itoa in H.
  assert (Hn : forall n, N.to_uint n <> Decimal.Nil).
  { intros [|p]; [discriminate|apply DecimalPos.Unsigned.to_uint_nonnil]. }
  apply (f_equal NilZero.uint_of_string) in H.
  rewrite !NilZero.usu in H by apply Hn.
  inversion H as [H']. apply DecimalN.Unsigned.to_uint_inj in H'.
  apply Z2N.inj in H'; assumption.
Qed.

(** X6: the action name of an audit line tells the action byte: 1 is
    "Drop", 2 is "Allow", and no two action values share a name. *)
Theorem convertXdpActionToString_inj (a b : Z) :
  0 <= a -> 0 <= b ->
  convertXdpActionToString a = convertXdpActionToString b -> a = b.
Proof.
  intros Ha Hb. unfold convertXdpActionToString, xdpDeny, xdpAllow.
  destruct (Z.eqb_spec a 1) as [->|Ha1], (Z.eqb_spec b 1) as [->|Hb1]; try reflexivity;
    try (destruct (Z.eqb_spec b 2) as [->|Hb2]; intros H; discriminate H);
    try (destruct (Z.eqb_spec a 2) as [->|Ha2]; intros H; discriminate H).
  destruct (Z.eqb_spec a 2) as [->|Ha2], (Z.eqb_spec b 2) as [->|Hb2]; try reflexivity;
    try (intros H; discriminate H).
  intros H. apply append_inj_l in H. apply itoa_inj; assumption.
Qed.

Lemma convertXdpActionToString_inj_witness :
  convertXdpActionToString 1 = "Drop" /\ convertXdpActionToString 2 = "Allow" /\
  (convertXdpActionToString 7 = convertXdpActionToString 7 -> 7 = 7).
Proof.
  split; [reflexivity|]. split; [reflexivity|].
  apply (convertXdpActionToString_inj 7 7); lia.
Defined.

(** X7: the 16-byte form of an IPv4 address.  [To16] of a 4-byte address
    is a 16-byte address that [To4] takes back to the 4 bytes, and both
    forms print as the same dotted text. *)
Theorem To16_To4 (ip : list byte) :
  length ip = 4%nat ->
  exists p, To16 ip = Some p /\ length p = 16%nat /\ To4 p = Some ip /\
            IP_String p = IP_String ip.
Proof.
  intros H. destruct ip as [|a [|b [|c [|d [|e ip]]]]]; try discriminate.
  eexists. split; [reflexivity|]. repeat split.
Qed.

Lemma To16_To4_witness :
  exists p, To16 [x0a; x00; x00; x01] = Some p /\ length p = 16%nat /\
            To4 p = Some [x0a; x00; x00; x01] /\
            IP_String p = IP_String [x0a; x00; x00; x01].
Proof. apply (To16_To4 [x0a; x00; x00; x01]). reflexivity. Defined.

(** ** The prefix length of a mask *)

Lemma CIDRMask_loop_zero l : CIDRMask_loop l 0 = repeat x00 l.
Proof. induction l as [|l IH]; [reflexivity|]. simpl. rewrite IH. reflexivity. Qed.

Lemma isZeros_repeat l : isZeros (repeat x00 l) = true.
Proof. induction l as [|l IH]; [reflexivity|]. simpl. exact IH. Qed.

Lemma CIDRMask_loop_length l : forall n, length (CIDRMask_loop l n) = l.
Proof.
  induction l as [|l IH]; intros n; [reflexivity|]. simpl.
  destruct (8 <=? n); simpl; rewrite IH; reflexivity.
Qed.

Lemma simpleMaskLength_CIDRMask l : forall n,
  0 <= n <= 8 * Z.of_nat l -> simpleMaskLength (CIDRMask_loop l n) = Some n.
Proof.
  induction l as [|l IH]; intros n Hn.
  - simpl. f_equal. lia.
  - cbn [CIDRMask_loop]. destruct (Z.leb_spec 8 n) as [H8|H8].
    + cbn [simpleMaskLength]. change (byteZ xff =? 255) with true. cbv iota.
      rewrite IH by lia. f_equal. lia.
    + rewrite CIDRMask_loop_zero.
      assert (Hc : n = 0 \/ n = 1 \/ n = 2 \/ n = 3 \/ n = 4 \/ n = 5 \/ n = 6 \/ n = 7) by lia.
      cbn [simpleMaskLength].
      destruct Hc as [->|[->|[->|[->|[->|[->|[->| ->]]]]]]];
        match goal with |- context [byte_of_Z ?z] =>
          let b := eval vm_compute in (byte_of_Z z) in change (byte_of_Z z) with b end;
        match goal with |- context [byteZ ?b =? 255] =>
          let v := eval vm_compute in (byteZ b) in change (byteZ b) with v end;
        match goal with |- context [leadingOnes ?v 8] =>
          let r := eval vm_compute in (leadingOnes v 8) in change (leadingOnes v 8) with r end;
        cbn -[isZeros repeat]; rewrite isZeros_repeat; reflexivity.
Qed.

(** X8: the prefix length the compiler reads from a mask.  For the mask
    of a /ones network of 32 or 128 bits, [Mask.Size] gives back the prefix
    length and the number of bits, so the key's prefix length is the one
    written in the CIDR text. *)
Theorem Mask_Size_CIDRMask (ones bits : Z) (mask : list byte) :
  CIDRMask ones bits = Some mask -> Mask_Size mask = (ones, bits).
Proof.
  unfold CIDRMask, Mask_Size.
  destruct (negb (bits =? 32) && negb (bits =? 128)) eqn:Eb; [discriminate|].
  destruct ((ones <? 0) || (bits <? ones)) eqn:Eo; [discriminate|].
  intros H. inversion H; subst mask. clear H.
  apply orb_false_iff in Eo as [H0 H1]. apply Z.ltb_ge in H0, H1.
  assert (Hb : bits = 32 \/ bits = 128).
  { destruct (Z.eqb_spec bits 32); [auto|]. destruct (Z.eqb_spec bits 128); [auto|].
    discriminate. }
  rewrite simpleMaskLength_CIDRMask, CIDRMask_loop_length.
  - destruct Hb as [-> | ->]; reflexivity.
  - destruct Hb as [-> | ->];
      [change (Z.to_nat (32 / 8)) with 4%nat|change (Z.to_nat (128 / 8)) with 16%nat]; lia.
Qed.

Lemma Mask_Size_CIDRMask_witness :
  Mask_Size [xff; xff; xfe; x00] = (23, 32).
Proof. apply (Mask_Size_CIDRMask 23 32). reflexivity. Defined.

(** ** What the rule loop compiles *)

Lemma alter_alter {A} (f g : A -> A) i (l : list A) :
  alter f i (alter g i l) = alter (fun x => f (g x)) i l.
Proof.
  revert i. induction l as [|x l IH]; intros [|i]; simpl; try reflexivity.
  f_equal. apply IH.
Qed.

Lemma setRule_setRule i f g rules :
  setRule i f (setRule i g rules) = setRule i (fun e => f (g e)) rules.
Proof. unfold setRule. simpl. rewrite alter_alter. reflexivity. Qed.

(** One turn of the rule loop on an accepted rule is one update of the
    entry at the index, and from the zero entry it gives the rule's entry. *)
Lemma rule_step rule i rules :
  rejected rule = false ->
  exists f,
    match protocolSwitch rule i (setRule i (BpfRuleTypeSt.setRuleId (v1alpha1.Order rule)) rules) with
    | inl r1 => actionSwitch rule i r1
    | inr err => inr err
    end = inl (setRule i f rules) /\
    f BpfRuleTypeSt.zero = compiledEntry rule.
Proof.
  unfold rejected, unknownProtocol, unknownAction, unparseablePorts, compiledEntry, carriesPorts.
  unfold protocolSwitch, actionSwitch, portsCase, icmpCase.
  destruct rule as [order proto ports ty code action]. cbn [v1alpha1.Protocol v1alpha1.Action
    v1alpha1.Ports v1alpha1.Order v1alpha1.ICMPType v1alpha1.ICMPCode].
  destruct (parseDstPorts ports) as [[start end_] [err|]];
    destruct proto; destruct action; simpl; intros H; try discriminate;
    rewrite ?setRule_setRule; eexists; (split; [reflexivity|reflexivity]).
Qed.

Lemma parseRules_fills maxRules rs : forall done rules,
  accepted rs = true ->
  (length done + length rs <= maxRules)%nat ->
  Rules rules = (map compiledEntry done ++ repeat BpfRuleTypeSt.zero (maxRules - length done))%list ->
  parseRules rs (length done) rules =
  inl {| NumRules := NumRules rules;
         Rules := (map compiledEntry (done ++ rs) ++
                   repeat BpfRuleTypeSt.zero (maxRules - length done - length rs))%list |}.
Proof.
  induction rs as [|rule rs IH]; intros done rules Hok Hlen Hr.
  - simpl. rewrite app_nil_r, Nat.sub_0_r, <- Hr. destruct rules; reflexivity.
  - simpl in Hok, Hlen. apply andb_prop in Hok as [H0 Hok]. apply negb_true_iff in H0.
    cbn [parseRules].
    assert (Hl : length (Rules rules) = maxRules).
    { rewrite Hr, length_app, length_map, repeat_length. lia. }
    destruct (Nat.ltb_spec (length done) (length (Rules rules))) as [_|Hge]; [|lia].
    simpl negb. cbv iota.
    destruct (rule_step rule (length done) rules H0) as (f & Hstep & Hf).
    destruct (protocolSwitch rule (length done) _) as [r1|err]; [|discriminate].
    rewrite Hstep.
    replace (S (length done)) with (length (done ++ [rule])%list) by (rewrite length_app; simpl; lia).
    rewrite (IH (done ++ [rule])%list (setRule (length done) f rules) Hok).
    + rewrite <- app_assoc. simpl. rewrite length_app. simpl.
      replace (maxRules - (length done + 1) - length rs)%nat
        with (maxRules - length done - S (length rs))%nat by lia.
      reflexivity.
    + rewrite length_app. simpl. lia.
    + unfold setRule. cbn [Rules]. rewrite Hr.
      replace (maxRules - length done)%nat with (S (maxRules - length (done ++ [rule])%list))
        by (rewrite length_app; simpl; lia).
      cbn [repeat].
      rewrite <- (length_map compiledEntry done) at 1.
      rewrite <- (Nat.add_0_r (length (map compiledEntry done))).
      rewrite alter_app_r. simpl. rewrite Hf, map_app, <- app_assoc. reflexivity.
Qed.

(** For a list of accepted rules no longer than the capacity the loop ends
    with the compiled value. *)
Lemma parseRules_value
  (maxRules : nat) (rs : list v1alpha1.IngressNodeFirewallProtocolRule) :
  accepted rs = true ->
  (length rs <= maxRules)%nat ->
  parseRules rs 0
    (setNumRules (Z.of_nat (length rs) mod 2 ^ 32) (BpfRulesValSt_zero maxRules)) =
  inl (compiledValue maxRules rs).
Proof.
  intros Hok Hlen.
  rewrite (parseRules_fills maxRules rs [] _ Hok); [|simpl; lia|simpl; f_equal; lia].
  unfold compiledValue. simpl. rewrite Nat.sub_0_r. reflexivity.
Qed.

(** ** What a compile call touches *)

(** A successful rule loop means accepted rules within the capacity, and
    then the value is the compiled one. *)
Lemma parseRules_inl maxRules rs n r :
  parseRules rs 0 (setNumRules n (BpfRulesValSt_zero maxRules)) = inl r ->
  accepted rs = true /\ (length rs <= maxRules)%nat.
Proof.
  intros H.
  set (rules := setNumRules n (BpfRulesValSt_zero maxRules)) in *.
  assert (Hl : length (Rules rules) = maxRules) by apply initial_rules_length.
  assert (Hacc : forall k rule, rs !! k = Some rule -> (k < maxRules)%nat -> rejected rule = false).
  { intros k rule Hk Hlt. destruct (rejected rule) eqn:Er; [|reflexivity].
    destruct (parseRules_rejects rs 0 rules k rule Hk Er) as [err He]; [lia|congruence]. }
  assert (Hlen : (length rs <= maxRules)%nat).
  { destruct (Nat.le_gt_cases (length rs) maxRules) as [|Hgt]; [assumption|].
    rewrite <- Hl in Hgt. rewrite parseRules_overflow in H; [discriminate|exact Hgt|].
    destruct (existsb rejected (firstn (length (Rules rules)) rs)) eqn:E; [|reflexivity].
    apply existsb_exists in E as (rule & Hin & Hrej).
    apply list_elem_of_In, list_elem_of_lookup_1 in Hin as [k Hk].
    apply lookup_take_Some in Hk as [Hk Hk']. rewrite (Hacc k rule Hk) in Hrej; [discriminate|lia]. }
  split; [|exact Hlen].
  apply forallb_forall. intros rule Hin. apply negb_true_iff.
  apply list_elem_of_In, list_elem_of_lookup_1 in Hin as [k Hk].
  apply (Hacc k rule Hk). apply lookup_lt_Some in Hk. lia.
Qed.

(** X9: what the rule loop compiles.  The loop over the rules ends with a
    value exactly when every rule is accepted and the list is no longer
    than the capacity; the value then has the count set to the number of
    rules, entry [i] the entry of rule [i] (rule id, protocol number, ports
    or ICMP type and code, verdict), and every entry after the last rule
    still zero. *)
Theorem parseRules_compiles
  (maxRules : nat) (rs : list v1alpha1.IngressNodeFirewallProtocolRule) :
  let start := setNumRules (Z.of_nat (length rs) mod 2 ^ 32) (BpfRulesValSt_zero maxRules) in
  (parseRules rs 0 start = inl (compiledValue maxRules rs) <->
   accepted rs = true /\ (length rs <= maxRules)%nat) /\
  (forall r, parseRules rs 0 start = inl r -> r = compiledValue maxRules rs).
Proof.
  cbv zeta. split; [split|].
  - apply parseRules_inl.
  - intros [Hok Hlen]. apply parseRules_value; assumption.
  - intros r E. destruct (parseRules_inl _ _ _ _ E) as [Hok Hlen].
    rewrite (parseRules_value maxRules rs Hok Hlen) in E. congruence.
Qed.

Lemma parseRules_compiles_witness :
  parseRules [tcpRule 1 "80-443"] 0
    (setNumRules (Z.of_nat 1 mod 2 ^ 32) (BpfRulesValSt_zero sampleMaxRules)) =
  inl {| NumRules := 1;
         Rules := ({| BpfRuleTypeSt.RuleId := 1; BpfRuleTypeSt.Protocol := IPPROTO_TCP;
                      BpfRuleTypeSt.DstPortStart := 80; BpfRuleTypeSt.DstPortEnd := 443;
                      BpfRuleTypeSt.IcmpType := 0; BpfRuleTypeSt.IcmpCode := 0;
                      BpfRuleTypeSt.Action := xdpAllow |}
                   :: repeat BpfRuleTypeSt.zero 99)%list |}.
Proof.
  apply (proj1 (parseRules_compiles sampleMaxRules [tcpRule 1 "80-443"])).
  split; [vm_compute; reflexivity|unfold sampleMaxRules; simpl; lia].
Defined.

Lemma Map_Update_spec key value k :
  (Map_Update key value k = (None, setTable (<[entryOf key := value]> (table k)) k) /\
   objs_open k = true /\ PrefixLen key <= 8 * Z.of_nat (length (IpData key))) \/
  (exists err, Map_Update key value k = (Some err, k) /\
     (objs_open k = false \/ 8 * Z.of_nat (length (IpData key)) < PrefixLen key)).
Proof.
  unfold Map_Update. destruct (objs_open k); simpl; [|right; eauto].
  destruct (Z.ltb_spec (8 * Z.of_nat (length (IpData key))) (PrefixLen key)); [right; eauto|].
  left. auto.
Qed.

Lemma Map_Delete_spec key k :
  (Map_Delete key k = (None, setTable (delete (entryOf key) (table k)) k) /\
   is_Some (table k !! entryOf key) /\
   objs_open k = true /\ PrefixLen key <= 8 * Z.of_nat (length (IpData key))) \/
  (exists err, Map_Delete key k = (Some err, k)).
Proof.
  unfold Map_Delete. destruct (objs_open k); simpl; [|right; eauto].
  destruct (Z.ltb_spec (8 * Z.of_nat (length (IpData key))) (PrefixLen key)); [right; eauto|].
  destruct (table k !! entryOf key) eqn:E; [left; eauto|right; eauto].
Qed.

Lemma Map_Delete_absent key k :
  table k !! entryOf key = None -> exists err, Map_Delete key k = (Some err, k).
Proof.
  intros H. unfold Map_Delete. destruct (negb (objs_open k)); [eauto|].
  destruct (_ <? _); [eauto|]. rewrite H. eauto.
Qed.

Lemma setTable_setTable t t' k : setTable t (setTable t' k) = setTable t k.
Proof. reflexivity. Qed.

Lemma setTable_id k : setTable (table k) k = k.
Proof. destruct k; reflexivity. Qed.

Lemma applyCIDRs_frame ParseCIDR cidrs isDelete rules : forall key st,
  infc (snd (applyCIDRs ParseCIDR cidrs isDelete rules key st)) = infc st /\
  kernel (snd (applyCIDRs ParseCIDR cidrs isDelete rules key st)) =
    setTable (table (kernel (snd (applyCIDRs ParseCIDR cidrs isDelete rules key st)))) (kernel st) /\
  log st `prefix_of` log (snd (applyCIDRs ParseCIDR cidrs isDelete rules key st)) /\
  if isDelete
  then table (kernel (snd (applyCIDRs ParseCIDR cidrs isDelete rules key st))) ⊆ table (kernel st)
  else forall e,
         table (kernel (snd (applyCIDRs ParseCIDR cidrs isDelete rules key st))) !! e =
           table (kernel st) !! e \/
         table (kernel (snd (applyCIDRs ParseCIDR cidrs isDelete rules key st))) !! e = Some rules.
Proof.
  induction cidrs as [|cidr cidrs IH]; intros key st.
  - simpl. rewrite setTable_id. repeat split; [reflexivity|]. destruct isDelete; [reflexivity|auto].
  - cbn [applyCIDRs].
    destruct (ParseCIDR cidr) as [[ip mask]|err].
    2:{ simpl. rewrite setTable_id. repeat split; [reflexivity|].
        destruct isDelete; [reflexivity|auto]. }
    destruct (Mask_Size mask) as [pfLen bits].
    set (key' := {| PrefixLen := pfLen mod 2 ^ 32; IpData := _ |}).
    destruct isDelete.
    + set (st1 := logPrintf _ _ st).
      destruct (Map_Delete_spec key' (kernel st1)) as [(E & _)|(err & E)]; rewrite E.
      * destruct (IH key' (setKernel (setTable (delete (entryOf key') (table (kernel st1)))
                                        (kernel st1)) st1)) as (Hi & Hk & Hl & Ht).
        split; [exact Hi|]. split; [rewrite Hk at 1; reflexivity|]. split.
        -- etransitivity; [|exact Hl]. apply prefix_app_r. reflexivity.
        -- etransitivity; [exact Ht|]. simpl. apply delete_subseteq.
      * simpl. rewrite setTable_id. repeat split; [|reflexivity].
        apply prefix_app_r. reflexivity.
    + set (st1 := logPrintf _ _ st).
      destruct (Map_Update_spec key' rules (kernel st1)) as [(E & _)|(err & E & _)]; rewrite E.
      * destruct (IH key' (setKernel (setTable (<[entryOf key' := rules]> (table (kernel st1)))
                                        (kernel st1)) st1)) as (Hi & Hk & Hl & Ht).
        split; [exact Hi|]. split; [rewrite Hk at 1; reflexivity|]. split.
        -- etransitivity; [|exact Hl]. apply prefix_app_r. reflexivity.
        -- intros e. destruct (Ht e) as [H|H]; [|right; exact H].
           rewrite H. simpl. destruct (decide (entryOf key' = e)) as [<-|Hne].
           ++ right. apply lookup_insert_eq.
           ++ left. apply lookup_insert_ne. exact Hne.
      * simpl. rewrite setTable_id. repeat split; [|auto].
        apply prefix_app_r. reflexivity.
Qed.

(** X10: what a compile call leaves alone.  Whatever its outcome,
    [makeIngressFwRulesMap] changes nothing but the table and the log: the
    registry, the interfaces, the link objects, the pins and the open state
    of the objects stay, and the log only grows.  A delete call only removes
    table entries.  An upsert call removes none, and every entry it adds or
    replaces holds the one compiled value of the rule list. *)
Theorem makeIngressFwRulesMap_frame
  (maxRules : nat) (ParseCIDR : string -> (list byte * list byte) + liberror)
  (ingFirewallConfig : v1alpha1.IngressNodeFirewallRules) (isDelete : bool) (st : State) :
  let st' := snd (makeIngressFwRulesMap maxRules ParseCIDR ingFirewallConfig isDelete st) in
  infc st' = infc st /\
  kernel st' = setTable (table (kernel st')) (kernel st) /\
  log st `prefix_of` log st' /\
  if isDelete
  then table (kernel st') ⊆ table (kernel st)
  else forall e,
         table (kernel st') !! e = table (kernel st) !! e \/
         table (kernel st') !! e =
           Some (compiledValue maxRules (v1alpha1.FirewallProtocolRules ingFirewallConfig)).
Proof.
  cbv zeta. unfold makeIngressFwRulesMap.
  destruct (parseRules _ 0 _) as [rules|out] eqn:E.
  - pose proof (parseRules_inl _ _ _ _ E) as [Hok Hlen].
    rewrite (parseRules_value maxRules _ Hok Hlen) in E. inversion E; subst rules.
    apply applyCIDRs_frame.
  - simpl. rewrite setTable_id. repeat split; [reflexivity|].
    destruct isDelete; [reflexivity|auto].
Qed.

(** ** A range that does not parse *)

Lemma applyCIDRs_stops ParseCIDR pre bad post isDelete rules err : forall key st,
  ParseCIDR bad = inr err ->
  snd (applyCIDRs ParseCIDR (pre ++ bad :: post) isDelete rules key st) =
    snd (applyCIDRs ParseCIDR pre isDelete rules key st) /\
  fst (applyCIDRs ParseCIDR (pre ++ bad :: post) isDelete rules key st) =
    match fst (applyCIDRs ParseCIDR pre isDelete rules key st) with
    | ReturnNil => ReturnErr (Errorf "Failed to parse SourceCIDRs: %v" [OErr err])
    | out => out
    end.
Proof.
  induction pre as [|cidr pre IH]; intros key st Hbad.
  - simpl. rewrite Hbad. auto.
  - change ((cidr :: pre) ++ bad :: post)%list with (cidr :: (pre ++ bad :: post))%list.
    cbn [applyCIDRs].
    destruct (ParseCIDR cidr) as [[ip mask]|e]; [|auto].
    destruct (Mask_Size mask) as [pfLen bits].
    destruct isDelete.
    + destruct (Map_Delete _ _) as [[e|] k]; [auto|]. apply IH, Hbad.
    + destruct (Map_Update _ _ _) as [[e|] k]; [auto|]. apply IH, Hbad.
Qed.

Lemma parseRules_not_nil rs : forall i rules, parseRules rs i rules <> inr ReturnNil.
Proof.
  induction rs as [|rule rs IH]; intros i rules; cbn [parseRules]; [discriminate|].
  destruct (negb _); [discriminate|].
  destruct (protocolSwitch _ _ _); [|discriminate].
  destruct (actionSwitch _ _ _); [|discriminate]. apply IH.
Qed.

(** X11: a range that does not parse.  When a source range fails to parse
    the call stops there: the ranges after it are not looked at, and the
    table and the log are exactly as the ranges before it left them, written
    or deleted and not rolled back.  When those all went through, the error
    is the parse error of that range. *)
Theorem makeIngressFwRulesMap_bad_range
  (maxRules : nat) (ParseCIDR : string -> (list byte * list byte) + liberror)
  (rs : list v1alpha1.IngressNodeFirewallProtocolRule)
  (pre : list string) (bad : string) (post : list string)
  (isDelete : bool) (st : State) (err : liberror) :
  ParseCIDR bad = inr err ->
  let before := makeIngressFwRulesMap maxRules ParseCIDR
                  {| v1alpha1.SourceCIDRs := pre; v1alpha1.FirewallProtocolRules := rs |}
                  isDelete st in
  let r := makeIngressFwRulesMap maxRules ParseCIDR
             {| v1alpha1.SourceCIDRs := pre ++ bad :: post;
                v1alpha1.FirewallProtocolRules := rs |} isDelete st in
  snd r = snd before /\
  fst r = match fst before with
          | ReturnNil => ReturnErr (Errorf "Failed to parse SourceCIDRs: %v" [OErr err])
          | out => out
          end.
Proof.
  intros Hbad. cbv zeta. unfold makeIngressFwRulesMap.
  cbn [v1alpha1.FirewallProtocolRules v1alpha1.SourceCIDRs].
  destruct (parseRules rs 0 _) as [rules|out] eqn:E.
  - apply applyCIDRs_stops, Hbad.
  - simpl. destruct out; auto. destruct (parseRules_not_nil _ _ _ E).
Qed.

Lemma makeIngressFwRulesMap_bad_range_witness :
  let before := makeIngressFwRulesMap sampleMaxRules sampleParseCIDR
                  (policy [tcpRule 1 "80-443"]) false freshState in
  let r := makeIngressFwRulesMap sampleMaxRules sampleParseCIDR
             {| v1alpha1.SourceCIDRs := ["10.0.0.0/8"; "10.0.0.0/33"; "10.0.0.0/8"];
                v1alpha1.FirewallProtocolRules := [tcpRule 1 "80-443"] |} false freshState in
  snd r = snd before /\
  fst r = ReturnErr (Errorf "Failed to parse SourceCIDRs: %v" [OErr (ErrParseCIDR "10.0.0.0/33")]).
Proof.
  exact (makeIngressFwRulesMap_bad_range sampleMaxRules sampleParseCIDR [tcpRule 1 "80-443"]
           ["10.0.0.0/8"] "10.0.0.0/33" ["10.0.0.0/8"] false freshState
           (ErrParseCIDR "10.0.0.0/33") eq_refl).
Defined.

(** ** The key buffer of the range loop *)

Lemma copy_length dst src : length (copy dst src) = length dst.
Proof.
  unfold copy. rewrite length_app, length_firstn, length_skipn. lia.
Qed.

Lemma copy_idem dst src : copy (copy dst src) src = copy dst src.
Proof.
  unfold copy at 1. rewrite copy_length. unfold copy.
  set (n := Nat.min (length dst) (length src)).
  assert (Hn : length (firstn n src) = n) by (rewrite length_firstn; lia).
  f_equal. rewrite skipn_app, Hn, Nat.sub_diag. simpl.
  rewrite <- Hn at 1. rewrite skipn_all. reflexivity.
Qed.

Lemma copy_short dst src :
  (length src <= length dst)%nat -> copy dst src = (src ++ skipn (length src) dst)%list.
Proof.
  intros H. unfold copy. rewrite Nat.min_r by exact H. rewrite firstn_all. reflexivity.
Qed.

Lemma To4_length ip ip4 : To4 ip = Some ip4 -> length ip4 = 4%nat.
Proof.
  unfold To4. destruct (Nat.eqb_spec (length ip) 4) as [H|H].
  - intros [= <-]. exact H.
  - destruct (Nat.eqb_spec (length ip) 16) as [H16|H16]; [|discriminate].
    destruct (_ && _ && _ && _); [|discriminate]. intros [= <-].
    unfold slice. rewrite length_firstn, length_skipn. lia.
Qed.

Lemma To16_16 ip : length ip = 16%nat -> To4 ip = None -> To16 ip = Some ip.
Proof.
  intros H _. unfold To16. rewrite H. reflexivity.
Qed.

(** The first range of the loop, when its upsert goes through. *)
Lemma applyCIDRs_upsert_step ParseCIDR cidr cidrs rules key st ip mask :
  ParseCIDR cidr = inl (ip, mask) ->
  objs_open (kernel st) = true ->
  length (IpData key) = 16%nat ->
  fst (Mask_Size mask) mod 2 ^ 32 <= 128 ->
  let key' := {| PrefixLen := fst (Mask_Size mask) mod 2 ^ 32;
                 IpData := match To4 ip with
                           | Some ip4 => copy (IpData key) ip4
                           | None => copy (IpData key)
                                       (match To16 ip with Some p => p | None => [] end)
                           end |} in
  applyCIDRs ParseCIDR (cidr :: cidrs) false rules key st =
  applyCIDRs ParseCIDR cidrs false rules key'
    {| infc := infc st;
       kernel := setTable (<[entryOf key' := rules]> (table (kernel st))) (kernel st);
       log := log st ++ [Printf "Creating ingress firewall rules for key %v"
                           [OKey (PrefixLen key') (IpData key')]] |}.
Proof.
  intros Hp Ho Hl Hpf key'. cbn [applyCIDRs]. rewrite Hp.
  destruct (Mask_Size mask) as [pfLen bits]. cbn [fst] in *. fold key'.
  unfold Map_Update. cbn [logPrintf kernel]. rewrite Ho. cbn [negb].
  assert (Hk : length (IpData key') = 16%nat).
  { unfold key'. cbn [IpData]. destruct (To4 ip); rewrite copy_length; exact Hl. }
  rewrite Hk. change (PrefixLen key') with (pfLen mod 2 ^ 32).
  destruct (Z.ltb_spec (8 * Z.of_nat 16) (pfLen mod 2 ^ 32)) as [H|H]; [lia|].
  reflexivity.
Qed.

Lemma applyCIDRs_upserts ParseCIDR rules cidrs : forall key st,
  objs_open (kernel st) = true ->
  length (IpData key) = 16%nat ->
  Forall (fitsKey ParseCIDR) cidrs ->
  fst (applyCIDRs ParseCIDR cidrs false rules key st) = ReturnNil /\
  exists lines,
    log (snd (applyCIDRs ParseCIDR cidrs false rules key st)) = (log st ++ lines)%list /\
    length lines = length cidrs /\
    forall line, line ∈ lines ->
      exists e, loggedEntry line = Some e /\
                table (kernel (snd (applyCIDRs ParseCIDR cidrs false rules key st))) !! e =
                  Some rules.
Proof.
  induction cidrs as [|cidr cidrs IH]; intros key st Ho Hl Hall.
  - simpl. split; [reflexivity|]. exists []. rewrite app_nil_r.
    repeat split. intros line Hin. inversion Hin.
  - inversion Hall as [|? ? (ip & mask & Hp & Hpf) Hall']; subst.
    rewrite (applyCIDRs_upsert_step _ _ _ _ _ _ _ _ Hp Ho Hl Hpf).
    set (key' := {| PrefixLen := _; IpData := _ |}).
    set (st1 := {| infc := infc st; kernel := _; log := _ |}).
    assert (Hk : length (IpData key') = 16%nat).
    { unfold key'. cbn [IpData]. destruct (To4 ip); rewrite copy_length; exact Hl. }
    destruct (IH key' st1 Ho Hk Hall') as (Hout & lines & Hlog & Hlen & Hlines).
    split; [exact Hout|].
    exists (Printf "Creating ingress firewall rules for key %v"
              [OKey (PrefixLen key') (IpData key')] :: lines).
    split; [rewrite Hlog; unfold st1; cbn [log]; rewrite <- app_assoc; reflexivity|].
    split; [simpl; rewrite Hlen; reflexivity|].
    intros line Hin. apply elem_of_cons in Hin as [->|Hin]; [|apply Hlines, Hin].
    exists (entryOf key'). split; [reflexivity|].
    destruct (applyCIDRs_frame ParseCIDR cidrs false rules key' st1) as (_ & _ & _ & Ht).
    destruct (Ht (entryOf key')) as [H|H]; [|exact H].
    rewrite H. unfold st1. cbn [kernel table setTable]. apply lookup_insert_eq.
Qed.

(** X12: an upsert call that goes through.  With accepted rules within the
    capacity, open objects, and source ranges that all parse and fit the key,
    the upsert call returns nil, logs exactly one line per range, each line
    showing a key, and afterwards every key it logged is in the table with
    the one compiled value of the rule list: the ranges of a rule set share
    their rules. *)
Theorem makeIngressFwRulesMap_upsert
  (maxRules : nat) (ParseCIDR : string -> (list byte * list byte) + liberror)
  (ingFirewallConfig : v1alpha1.IngressNodeFirewallRules) (st : State) :
  accepted (v1alpha1.FirewallProtocolRules ingFirewallConfig) = true ->
  (length (v1alpha1.FirewallProtocolRules ingFirewallConfig) <= maxRules)%nat ->
  objs_open (kernel st) = true ->
  Forall (fitsKey ParseCIDR) (v1alpha1.SourceCIDRs ingFirewallConfig) ->
  exists st' lines,
    makeIngressFwRulesMap maxRules ParseCIDR ingFirewallConfig false st = (ReturnNil, st') /\
    log st' = (log st ++ lines)%list /\
    length lines = length (v1alpha1.SourceCIDRs ingFirewallConfig) /\
    forall line, line ∈ lines ->
      exists e, loggedEntry line = Some e /\
                table (kernel st') !! e =
                  Some (compiledValue maxRules (v1alpha1.FirewallProtocolRules ingFirewallConfig)).
Proof.
  intros Hok Hlen Ho Hall. unfold makeIngressFwRulesMap.
  rewrite (parseRules_value maxRules _ Hok Hlen).
  destruct (applyCIDRs_upserts ParseCIDR
              (compiledValue maxRules (v1alpha1.FirewallProtocolRules ingFirewallConfig))
              (v1alpha1.SourceCIDRs ingFirewallConfig) BpfBpfLpmIpKeySt_zero st Ho eq_refl Hall)
    as (Hout & lines & Hlog & Hl & Hlines).
  destruct (applyCIDRs _ _ _ _ _ _) as [out st'] eqn:E. cbn [fst snd] in *. subst out.
  exists st', lines. auto.
Qed.

Lemma sample_ranges_fit :
  Forall (fitsKey sampleParseCIDR6) ["2001:db8::/32"; "10.0.0.0/8"].
Proof.
  repeat constructor.
  - exists ([x20; x01; x0d; xb8] ++ repeat x00 12)%list,
           ([xff; xff; xff; xff] ++ repeat x00 12)%list.
    split; [reflexivity|]. vm_compute. discriminate.
  - exists (repeat x00 10 ++ [xff; xff; x0a; x00; x00; x00])%list, [xff; x00; x00; x00].
    split; [reflexivity|]. vm_compute. discriminate.
Qed.

Lemma makeIngressFwRulesMap_upsert_witness :
  exists st' lines,
    makeIngressFwRulesMap sampleMaxRules sampleParseCIDR6
      {| v1alpha1.SourceCIDRs := ["2001:db8::/32"; "10.0.0.0/8"];
         v1alpha1.FirewallProtocolRules := [tcpRule 1 "80-443"] |} false freshState =
      (ReturnNil, st') /\
    log st' = (log freshState ++ lines)%list /\
    length lines = 2%nat /\
    forall line, line ∈ lines ->
      exists e, loggedEntry line = Some e /\
                table (kernel st') !! e =
                  Some (compiledValue sampleMaxRules [tcpRule 1 "80-443"]).
Proof.
  apply (makeIngressFwRulesMap_upsert sampleMaxRules sampleParseCIDR6
           {| v1alpha1.SourceCIDRs := ["2001:db8::/32"; "10.0.0.0/8"];
              v1alpha1.FirewallProtocolRules := [tcpRule 1 "80-443"] |} freshState).
  - vm_compute. reflexivity.
  - vm_compute. lia.
  - reflexivity.
  - exact sample_ranges_fit.
Defined.

(** X13: the key buffer is shared by the ranges.  [key] is declared before
    the range loop and [copy] writes only as many bytes as the address has:
    when an IPv6 range is followed by an IPv4 range, the key of the second
    range is the 4 address bytes followed by bytes 4 to 15 of the IPv6
    address before it, and that is the key the call logs for it. *)
Theorem key_buffer_reused
  (maxRules : nat) (ParseCIDR : string -> (list byte * list byte) + liberror)
  (rs : list v1alpha1.IngressNodeFirewallProtocolRule)
  (c1 c2 : string) (rest : list string) (st : State)
  (ip1 m1 ip2 m2 ip4 : list byte) :
  accepted rs = true ->
  (length rs <= maxRules)%nat ->
  objs_open (kernel st) = true ->
  ParseCIDR c1 = inl (ip1, m1) ->
  length ip1 = 16%nat ->
  To4 ip1 = None ->
  fst (Mask_Size m1) mod 2 ^ 32 <= 128 ->
  ParseCIDR c2 = inl (ip2, m2) ->
  To4 ip2 = Some ip4 ->
  log (snd (makeIngressFwRulesMap maxRules ParseCIDR
              {| v1alpha1.SourceCIDRs := c1 :: c2 :: rest;
                 v1alpha1.FirewallProtocolRules := rs |} false st))
    !! (length (log st) + 1)%nat =
  Some (Printf "Creating ingress firewall rules for key %v"
          [OKey (fst (Mask_Size m2) mod 2 ^ 32) (ip4 ++ skipn 4 ip1)]).
Proof.
  intros Hok Hlen Ho Hp1 Hl1 Hv6 Hpf1 Hp2 Hv4. unfold makeIngressFwRulesMap.
  cbn [v1alpha1.FirewallProtocolRules v1alpha1.SourceCIDRs].
  rewrite (parseRules_value maxRules _ Hok Hlen).
  rewrite (applyCIDRs_upsert_step _ _ _ _ BpfBpfLpmIpKeySt_zero _ _ _ Hp1 Ho eq_refl Hpf1).
  rewrite Hv6, (To16_16 ip1 Hl1 Hv6).
  change (IpData BpfBpfLpmIpKeySt_zero) with (repeat x00 16).
  rewrite (copy_short (repeat x00 16) ip1) by (rewrite repeat_length; lia).
  rewrite Hl1. change (skipn 16 (repeat x00 16)) with (@nil byte). rewrite app_nil_r.
  set (key1 := {| PrefixLen := _; IpData := ip1 |}).
  set (st1 := {| infc := infc st; kernel := _; log := _ |}).
  assert (Hline : log (snd (applyCIDRs ParseCIDR (c2 :: rest) false (compiledValue maxRules rs)
                              key1 st1)) !! (length (log st) + 1)%nat =
                  Some (Printf "Creating ingress firewall rules for key %v"
                          [OKey (fst (Mask_Size m2) mod 2 ^ 32) (copy ip1 ip4)])).
  { cbn [applyCIDRs]. rewrite Hp2, Hv4. destruct (Mask_Size m2) as [pf2 bits2]. cbn [fst].
    cbn [IpData key1].
    set (key2 := {| PrefixLen := pf2 mod 2 ^ 32; IpData := copy ip1 ip4 |}).
    set (st2 := logPrintf _ _ st1).
    assert (H2 : log st2 !! (length (log st) + 1)%nat =
                 Some (Printf "Creating ingress firewall rules for key %v"
                         [OKey (pf2 mod 2 ^ 32) (copy ip1 ip4)])).
    { unfold st2, st1. cbn [logPrintf log]. rewrite <- app_assoc.
      rewrite lookup_app_r by lia. replace (length (log st) + 1 - length (log st))%nat with 1%nat by lia.
      reflexivity. }
    destruct (Map_Update_spec key2 (compiledValue maxRules rs) (kernel st2))
      as [(E & _)|(err & E & _)]; rewrite E.
    - destruct (applyCIDRs_frame ParseCIDR rest false (compiledValue maxRules rs) key2
                  (setKernel (setTable (<[entryOf key2 := compiledValue maxRules rs]>
                                          (table (kernel st2))) (kernel st2)) st2))
        as (_ & _ & Hpre & _).
      apply (prefix_lookup_Some _ _ _ _ H2 Hpre).
    - exact H2. }
  rewrite Hline. rewrite (copy_short ip1 ip4) by (rewrite (To4_length _ _ Hv4), Hl1; lia).
  rewrite (To4_length _ _ Hv4). reflexivity.
Qed.

Lemma key_buffer_reused_witness :
  log (snd (makeIngressFwRulesMap sampleMaxRules sampleParseCIDR6
              {| v1alpha1.SourceCIDRs := ["2001:db8::/32"; "10.0.0.0/8"];
                 v1alpha1.FirewallProtocolRules := [tcpRule 1 "80-443"] |} false freshState))
    !! (length (log freshState) + 1)%nat =
  Some (Printf "Creating ingress firewall rules for key %v"
          [OKey (fst (Mask_Size [xff; x00; x00; x00]) mod 2 ^ 32)
                ([x0a; x00; x00; x00] ++
                 skipn 4 ([x20; x01; x0d; xb8] ++ repeat x00 12))]).
Proof.
  apply (key_buffer_reused sampleMaxRules sampleParseCIDR6 [tcpRule 1 "80-443"]
           "2001:db8::/32" "10.0.0.0/8" [] freshState
           ([x20; x01; x0d; xb8] ++ repeat x00 12)%list
           ([xff; xff; xff; xff] ++ repeat x00 12)%list
           (repeat x00 10 ++ [xff; xff; x0a; x00; x00; x00])%list
           [xff; x00; x00; x00] [x0a; x00; x00; x00]).
  - vm_compute. reflexivity.
  - vm_compute. lia.
  - reflexivity.
  - reflexivity.
  - reflexivity.
  - reflexivity.
  - vm_compute. discriminate.
  - reflexivity.
  - reflexivity.
Defined.

(** ** Upsert and delete of the same rule set *)

Lemma applyCIDRs_delete_step ParseCIDR cidr cidrs rules key st ip mask :
  ParseCIDR cidr = inl (ip, mask) ->
  let key' := {| PrefixLen := fst (Mask_Size mask) mod 2 ^ 32;
                 IpData := match To4 ip with
                           | Some ip4 => copy (IpData key) ip4
                           | None => copy (IpData key)
                                       (match To16 ip with Some p => p | None => [] end)
                           end |} in
  let st1 := logPrintf "Deleting ingress firewall rules for key %v"
               [OKey (PrefixLen key') (IpData key')] st in
  applyCIDRs ParseCIDR (cidr :: cidrs) true rules key st =
  match Map_Delete key' (kernel st) with
  | (Some err, k) =>
      (ReturnErr (Errorf "Failed Deleting ingress firewall rules: %v" [OErr err]),
       setKernel k st1)
  | (None, k) => applyCIDRs ParseCIDR cidrs true rules key' (setKernel k st1)
  end.
Proof.
  intros Hp key' st1. cbn [applyCIDRs]. rewrite Hp.
  destruct (Mask_Size mask) as [pfLen bits]. reflexivity.
Qed.

(** The key the range loop builds for its first range. *)
Lemma first_key ip mask :
  {| PrefixLen := fst (Mask_Size mask) mod 2 ^ 32;
     IpData := match To4 ip with
               | Some ip4 => copy (IpData BpfBpfLpmIpKeySt_zero) ip4
               | None => copy (IpData BpfBpfLpmIpKeySt_zero)
                           (match To16 ip with Some p => p | None => [] end)
               end |} = rangeKey ip mask.
Proof.
  unfold rangeKey, addr16. f_equal.
  change (IpData BpfBpfLpmIpKeySt_zero) with (repeat x00 16).
  destruct (To4 ip) as [ip4|] eqn:E4.
  - rewrite copy_short by (rewrite (To4_length _ _ E4), repeat_length; lia).
    rewrite (To4_length _ _ E4). reflexivity.
  - destruct (To16 ip) as [p|] eqn:E16; [|reflexivity].
    assert (Hp : length p = 16%nat).
    { unfold To16 in E16. unfold To4 in E4.
      destruct (Nat.eqb_spec (length ip) 4); [discriminate|].
      destruct (Nat.eqb_spec (length ip) 16); [|discriminate].
      injection E16 as <-. assumption. }
    rewrite copy_short by (rewrite Hp, repeat_length; lia).
    rewrite Hp. change (skipn 16 (repeat x00 16)) with (@nil byte). apply app_nil_r.
Qed.

Lemma rangeKey_length ip mask : length (IpData (rangeKey ip mask)) = 16%nat.
Proof. rewrite <- first_key. cbn [IpData]. destruct (To4 ip); apply copy_length. Qed.

(** Building the key of the same range again leaves it as it is. *)
Lemma rebuild_key ip mask :
  {| PrefixLen := fst (Mask_Size mask) mod 2 ^ 32;
     IpData := match To4 ip with
               | Some ip4 => copy (IpData (rangeKey ip mask)) ip4
               | None => copy (IpData (rangeKey ip mask))
                           (match To16 ip with Some p => p | None => [] end)
               end |} = rangeKey ip mask.
Proof.
  rewrite <- (first_key ip mask). cbn [IpData]. f_equal.
  destruct (To4 ip); apply copy_idem.
Qed.

(** X14: upsert, then delete, of a rule set with one range.  The upsert
    puts the compiled value at the entry of the range, that is under the
    prefix length of its mask and the bits of its address within the prefix;
    the delete of the same rule set returns nil and removes that entry: the
    table is the one before the upsert without that entry, and nothing else
    of the kernel changed. *)
Theorem upsert_then_delete
  (maxRules : nat) (ParseCIDR : string -> (list byte * list byte) + liberror)
  (rs : list v1alpha1.IngressNodeFirewallProtocolRule) (cidr : string) (st : State)
  (ip mask : list byte) :
  accepted rs = true ->
  (length rs <= maxRules)%nat ->
  objs_open (kernel st) = true ->
  ParseCIDR cidr = inl (ip, mask) ->
  fst (Mask_Size mask) mod 2 ^ 32 <= 128 ->
  let cfg := {| v1alpha1.SourceCIDRs := [cidr]; v1alpha1.FirewallProtocolRules := rs |} in
  let e := (fst (Mask_Size mask) mod 2 ^ 32,
            maskData (addr16 ip) (fst (Mask_Size mask) mod 2 ^ 32)) in
  exists st1 st2,
    makeIngressFwRulesMap maxRules ParseCIDR cfg false st = (ReturnNil, st1) /\
    table (kernel st1) = <[e := compiledValue maxRules rs]> (table (kernel st)) /\
    makeIngressFwRulesMap maxRules ParseCIDR cfg true st1 = (ReturnNil, st2) /\
    kernel st2 = setTable (delete e (table (kernel st))) (kernel st).
Proof.
  intros Hok Hlen Ho Hp Hpf cfg e. unfold cfg, makeIngressFwRulesMap.
  cbn [v1alpha1.FirewallProtocolRules v1alpha1.SourceCIDRs].
  rewrite (parseRules_value maxRules _ Hok Hlen).
  rewrite (applyCIDRs_upsert_step _ _ _ _ BpfBpfLpmIpKeySt_zero _ _ _ Hp Ho eq_refl Hpf).
  rewrite first_key.
  change (entryOf (rangeKey ip mask)) with e.
  eexists. eexists.
  split; [cbn [applyCIDRs]; reflexivity|]. split; [reflexivity|].
  rewrite (applyCIDRs_delete_step _ _ _ _ _ _ _ _ Hp).
  rewrite first_key. cbn [applyCIDRs].
  unfold Map_Delete. cbn [kernel setTable objs_open table]. rewrite Ho. cbn [negb].
  rewrite rangeKey_length. change (PrefixLen (rangeKey ip mask)) with (fst (Mask_Size mask) mod 2 ^ 32).
  destruct (Z.ltb_spec (8 * Z.of_nat 16) (fst (Mask_Size mask) mod 2 ^ 32)) as [H|H]; [lia|].
  change (entryOf (rangeKey ip mask)) with e.
  rewrite lookup_insert_eq. split; [reflexivity|].
  cbn [kernel setKernel logPrintf]. unfold setTable. cbn.
  rewrite delete_insert_eq. reflexivity.
Qed.

Lemma upsert_then_delete_witness :
  exists st1 st2,
    makeIngressFwRulesMap sampleMaxRules sampleParseCIDR (policy [tcpRule 1 "80-443"])
      false freshState = (ReturnNil, st1) /\
    table (kernel st1) =
      <[(8, x0a :: repeat x00 15) := compiledValue sampleMaxRules [tcpRule 1 "80-443"]]>
        (table (kernel freshState)) /\
    makeIngressFwRulesMap sampleMaxRules sampleParseCIDR (policy [tcpRule 1 "80-443"])
      true st1 = (ReturnNil, st2) /\
    kernel st2 =
      setTable (delete (8, x0a :: repeat x00 15) (table (kernel freshState))) (kernel freshState).
Proof.
  apply (upsert_then_delete sampleMaxRules sampleParseCIDR [tcpRule 1 "80-443"]
           "10.0.0.0/8" freshState
           (repeat x00 10 ++ [xff; xff; x0a; x00; x00; x00])%list [xff; x00; x00; x00]).
  - vm_compute. reflexivity.
  - vm_compute. lia.
  - reflexivity.
  - reflexivity.
  - vm_compute. discriminate.
Defined.

(** X15: a range listed twice cannot be deleted.  A delete call whose
    range list starts with the same range twice never returns nil, and the
    ranges after them are not reached.  When the entry of the range is in
    the table and the table takes the key, the first delete removes the
    entry and the second one fails on the missing key: the call returns
    that error with the entry gone and two lines logged.  Otherwise the
    first delete fails, and the call returns with the kernel as it was and
    one line logged. *)
Theorem delete_repeated_range
  (maxRules : nat) (ParseCIDR : string -> (list byte * list byte) + liberror)
  (rs : list v1alpha1.IngressNodeFirewallProtocolRule)
  (cidr : string) (post : list string) (st : State) (ip mask : list byte) :
  accepted rs = true ->
  (length rs <= maxRules)%nat ->
  ParseCIDR cidr = inl (ip, mask) ->
  let key := rangeKey ip mask in
  let r := makeIngressFwRulesMap maxRules ParseCIDR
             {| v1alpha1.SourceCIDRs := cidr :: cidr :: post;
                v1alpha1.FirewallProtocolRules := rs |} true st in
  (exists err,
     fst r = ReturnErr (Errorf "Failed Deleting ingress firewall rules: %v" [OErr err])) /\
  (objs_open (kernel st) = true /\ PrefixLen key <= 128 /\
   is_Some (table (kernel st) !! entryOf key) ->
   fst r = ReturnErr (Errorf "Failed Deleting ingress firewall rules: %v"
                        [OErr ErrKeyNotExist]) /\
   kernel (snd r) = setTable (delete (entryOf key) (table (kernel st))) (kernel st) /\
   log (snd r) = (log st ++ [deletingLine key; deletingLine key])%list) /\
  (objs_open (kernel st) = false \/ 128 < PrefixLen key \/
   table (kernel st) !! entryOf key = None ->
   kernel (snd r) = kernel st /\
   log (snd r) = (log st ++ [deletingLine key])%list).
Proof.
  intros Hok Hlen Hp. cbv zeta. unfold makeIngressFwRulesMap.
  cbn [v1alpha1.FirewallProtocolRules v1alpha1.SourceCIDRs].
  rewrite (parseRules_value maxRules _ Hok Hlen).
  rewrite (applyCIDRs_delete_step _ _ _ _ _ _ _ _ Hp). rewrite first_key.
  pose proof (rangeKey_length ip mask) as Hk16.
  destruct (Map_Delete_spec (rangeKey ip mask) (kernel st))
    as [(E & Hsome & Ho & Hpf)|(err & E)]; rewrite E.
  - rewrite (applyCIDRs_delete_step _ _ _ _ _ _ _ _ Hp). rewrite rebuild_key.
    cbn [kernel setKernel logPrintf].
    assert (E2 : Map_Delete (rangeKey ip mask)
                   (setTable (delete (entryOf (rangeKey ip mask)) (table (kernel st)))
                      (kernel st)) =
                 (Some ErrKeyNotExist,
                  setTable (delete (entryOf (rangeKey ip mask)) (table (kernel st)))
                    (kernel st))).
    { unfold Map_Delete. cbn [setTable objs_open table]. rewrite Ho. cbn [negb].
      rewrite Hk16 in *.
      destruct (Z.ltb_spec (8 * Z.of_nat 16) (PrefixLen (rangeKey ip mask))) as [H|H]; [lia|].
      rewrite lookup_delete_eq. reflexivity. }
    rewrite E2. cbn [fst snd kernel setKernel logPrintf log].
    split; [eauto|]. split.
    + intros _. split; [reflexivity|]. split; [reflexivity|].
      rewrite <- app_assoc. reflexivity.
    + rewrite Hk16 in Hpf. intros [H|[H|H]].
      * congruence.
      * lia.
      * rewrite H in Hsome. destruct Hsome as [? ?]; discriminate.
  - cbn [fst snd kernel setKernel logPrintf log]. split; [eauto|]. split.
    + intros (Ho & Hpf & Hsome). exfalso.
      unfold Map_Delete in E. rewrite Ho in E. cbn [negb] in E. rewrite Hk16 in E.
      destruct (Z.ltb_spec (8 * Z.of_nat 16) (PrefixLen (rangeKey ip mask))) as [H|H]; [lia|].
      destruct Hsome as [v Hv]. rewrite Hv in E. discriminate.
    + intros _. split; reflexivity.
Qed.

(** The scenario the property is named for: the rule set of the examples
    is upserted on the fresh controller, then deleted with its range listed
    three times.  The first delete removes the entry, the second fails on
    the missing key, the third range is not reached. *)
Lemma delete_repeated_range_witness :
  let st := snd (makeIngressFwRulesMap sampleMaxRules sampleParseCIDR
                   (policy [tcpRule 1 "80-443"]) false freshState) in
  let key := rangeKey (repeat x00 10 ++ [xff; xff; x0a; x00; x00; x00])%list
               [xff; x00; x00; x00] in
  let r := makeIngressFwRulesMap sampleMaxRules sampleParseCIDR
             {| v1alpha1.SourceCIDRs := ["10.0.0.0/8"; "10.0.0.0/8"; "10.0.0.0/8"];
                v1alpha1.FirewallProtocolRules := [tcpRule 1 "80-443"] |} true st in
  is_Some (table (kernel st) !! entryOf key) /\
  fst r = ReturnErr (Errorf "Failed Deleting ingress firewall rules: %v"
                       [OErr ErrKeyNotExist]) /\
  kernel (snd r) = setTable (delete (entryOf key) (table (kernel st))) (kernel st) /\
  log (snd r) = (log st ++ [deletingLine key; deletingLine key])%list.
Proof.
  cbv zeta.
  assert (Hsome : is_Some
            (table (kernel (snd (makeIngressFwRulesMap sampleMaxRules sampleParseCIDR
                                   (policy [tcpRule 1 "80-443"]) false freshState)))
             !! entryOf (rangeKey (repeat x00 10 ++ [xff; xff; x0a; x00; x00; x00])%list
                          [xff; x00; x00; x00]))).
  { exists (compiledValue sampleMaxRules [tcpRule 1 "80-443"]). vm_compute. reflexivity. }
  split; [exact Hsome|].
  apply (delete_repeated_range sampleMaxRules sampleParseCIDR [tcpRule 1 "80-443"]
           "10.0.0.0/8" ["10.0.0.0/8"]
           (snd (makeIngressFwRulesMap sampleMaxRules sampleParseCIDR
                   (policy [tcpRule 1 "80-443"]) false freshState))
           (repeat x00 10 ++ [xff; xff; x0a; x00; x00; x00])%list [xff; x00; x00; x00]).
  - vm_compute. reflexivity.
  - vm_compute. lia.
  - reflexivity.
  - split; [reflexivity|]. split; [vm_compute; discriminate|exact Hsome].
Defined.

(** ** Links created and links registered *)

(** X16: the books of an attach call.  Whatever its outcome, an attach call
    that got through [n] names has appended [n] handles to the registry, the
    [n] link objects it created first, in order, and has logged [n] lines;
    [n] is the number of names when it returns nil.  It created one link
    object more than it registered exactly when it ended on the error of
    [Pin]: that link is attached and open, and in no registry. *)
Theorem attach_accounting
  (attach_error : Kernel -> Z -> option liberror)
  (pin_error : Kernel -> nat -> string -> option liberror)
  (ifacesName : list string) (st : State) :
  let r := IngressNodeFwAttach attach_error pin_error ifacesName false st in
  exists n, (n <= length ifacesName)%nat /\
    links (infc (snd r)) = (links (infc st) ++ seq (length (xdp_links (kernel st))) n)%list /\
    length (log (snd r)) = (length (log st) + n)%nat /\
    (fst r = ReturnNil -> n = length ifacesName) /\
    length (xdp_links (kernel (snd r))) =
      (length (xdp_links (kernel st)) + n + (if isPinFailure (fst r) then 1 else 0))%nat /\
    (isPinFailure (fst r) = true ->
     exists x, xdp_links (kernel (snd r)) !! (length (xdp_links (kernel st)) + n)%nat = Some x /\
               pinnedPath x = None /\ fd_open x = true).
Proof.
  cbv zeta. revert st. induction ifacesName as [|name names IH]; intros st.
  - exists 0%nat. simpl. rewrite app_nil_r. repeat split; try lia; try discriminate.
  - rewrite attach_step.
    destruct (InterfaceByName (interfaces (kernel st)) name) as [iface|err].
    2:{ exists 0%nat. simpl. rewrite app_nil_r. repeat split; try lia; discriminate. }
    destruct (attach_error (kernel st) (Index iface)) as [err|].
    { exists 0%nat. simpl. rewrite app_nil_r. repeat split; try lia; discriminate. }
    cbv zeta. destruct (pin_error _ _ _) as [err|].
    + exists 0%nat. cbn [fst snd isPinFailure]. rewrite String.eqb_refl.
      cbn [setKernel infc kernel log setXdpLinks xdp_links seq].
      rewrite app_nil_r, length_app. cbn [length].
      repeat split; try lia; try discriminate.
      intros _. exists {| ifindex := Index iface; pinnedPath := None; fd_open := true |}.
      split; [|split; reflexivity].
      rewrite Nat.add_0_r. apply list_lookup_middle. reflexivity.
    + match goal with |- context [IngressNodeFwAttach attach_error pin_error names false ?st1] =>
        set (s1 := st1) end.
      destruct (IH s1) as (n & Hn & Hl & Hlog & Hnil & Hx & Hpin).
      assert (Hx1 : length (xdp_links (kernel s1)) = S (length (xdp_links (kernel st)))).
      { unfold s1. cbn. rewrite length_app. simpl. lia. }
      exists (S n). split; [simpl; lia|]. split.
      { rewrite Hl, Hx1. unfold s1. cbn. rewrite <- app_assoc. reflexivity. }
      split.
      { rewrite Hlog. unfold s1. cbn. rewrite length_app. simpl. lia. }
      split; [intros H; simpl; f_equal; auto|]. split.
      { rewrite Hx, Hx1. lia. }
      intros H. destruct (Hpin H) as (x & Hlx & Hp & Hf). exists x.
      rewrite Hx1 in Hlx. replace (length (xdp_links (kernel st)) + S n)%nat
        with (S (length (xdp_links (kernel st))) + n)%nat by lia. auto.
Qed.

(** ** Compiling rules after a detach *)





